(** * DirectDomainList: the rule-list preprocessor and the YAML converter

    A shallow embedding of [preprocess_list.py] and [convert_list_to_yaml.py].

    Text is modelled as [string], one [ascii] per character of the Python
    [str]; the model covers ASCII text (code points below 128), on which
    [str.strip] and [str.upper] are the functions of module [Text].  A file
    holds its text as stored; reading goes through the text layer's
    universal newlines, which hand a carriage return, alone or before a
    newline, to the program as one newline, and writing stores the text as
    given (as on POSIX, where a written newline stays a newline).  A path
    is a [pathlib] path in its normal form, as [Path(...)] holds it, so that
    the equality of paths is the equality of strings.  A file system is a
    finite map from paths to contents, on which reading and writing do not
    fail.  Console output is not modelled. *)

From Stdlib Require Import Ascii.
From stdpp Require Import gmap strings list pretty.

(** ** Python's [str] methods used by the two scripts *)
Module Text.

(** [str.isspace] on one ASCII character: TAB..CR, FS..US and the space. *)
Definition isspace (c : ascii) : bool :=
  let n := nat_of_ascii c in
  ((9 <=? n) && (n <=? 13)) || ((28 <=? n) && (n <=? 31)) || (n =? 32).

(** The newline character and the one-character string holding it. *)
Definition NL : ascii := "010"%char.
Definition nl : string := String NL EmptyString.

Fixpoint lstrip (s : string) : string :=
  match s with
  | EmptyString => EmptyString
  | String c s' => if isspace c then lstrip s' else s
  end.

Fixpoint rstrip (s : string) : string :=
  match s with
  | EmptyString => EmptyString
  | String c s' =>
      match rstrip s' with
      | EmptyString => if isspace c then EmptyString else String c EmptyString
      | r => String c r
      end
  end.

(** [s.strip()] *)
Definition strip (s : string) : string := rstrip (lstrip s).

(** [s.lstrip(chars)] for a one-character [chars]. *)
Fixpoint lstrip_char (x : ascii) (s : string) : string :=
  match s with
  | EmptyString => EmptyString
  | String c s' => if Ascii.eqb c x then lstrip_char x s' else s
  end.

Definition upper_char (c : ascii) : ascii :=
  let n := nat_of_ascii c in
  if (97 <=? n) && (n <=? 122) then ascii_of_nat (n - 32) else c.

(** [s.upper()] *)
Fixpoint upper (s : string) : string :=
  match s with
  | EmptyString => EmptyString
  | String c s' => String (upper_char c) (upper s')
  end.

Definition lower_char (c : ascii) : ascii :=
  let n := nat_of_ascii c in
  if (65 <=? n) && (n <=? 90) then ascii_of_nat (n + 32) else c.

(** [s.lower()] *)
Fixpoint lower (s : string) : string :=
  match s with
  | EmptyString => EmptyString
  | String c s' => String (lower_char c) (lower s')
  end.

(** [c.swapcase()] on one ASCII character. *)
Definition swapcase_char (c : ascii) : ascii :=
  let n := nat_of_ascii c in
  if (97 <=? n) && (n <=? 122) then ascii_of_nat (n - 32)
  else if (65 <=? n) && (n <=? 90) then ascii_of_nat (n + 32)
  else c.

(** Two texts that differ only in letter case: of one length, and at each
    position the same character or the two cases of one letter. *)
Fixpoint same_modulo_case (s t : string) : bool :=
  match s, t with
  | EmptyString, EmptyString => true
  | String a s', String b t' =>
      (Ascii.eqb a b || Ascii.eqb (swapcase_char a) b)
      && same_modulo_case s' t'
  | _, _ => false
  end.

(** [s.startswith(p)] *)
Definition startswith (p s : string) : bool := String.prefix p s.

(** [x in s] for a one-character [x]. *)
Fixpoint contains (x : ascii) (s : string) : bool :=
  match s with
  | EmptyString => false
  | String c s' => Ascii.eqb c x || contains x s'
  end.

(** The text before and after the first occurrence of [x], if any. *)
Fixpoint cut (x : ascii) (s : string) : option (string * string) :=
  match s with
  | EmptyString => None
  | String c s' =>
      if Ascii.eqb c x then Some (EmptyString, s')
      else match cut x s' with
           | Some (a, b) => Some (String c a, b)
           | None => None
           end
  end.

(** [s.split(x, 1)]: at most one split, at the first occurrence. *)
Definition split1 (x : ascii) (s : string) : list string :=
  match cut x s with
  | Some (a, b) => [a; b]
  | None => [s]
  end.

(** [sep.join(l)] *)
Fixpoint join (sep : string) (l : list string) : string :=
  match l with
  | [] => EmptyString
  | [s] => s
  | s :: l' => s +:+ sep +:+ join sep l'
  end.

(** The carriage return. *)
Definition CR : ascii := "013"%char.

(** Universal newlines, the translation that a file opened for reading in
    text mode applies: a carriage return followed by a newline becomes that
    newline, any other carriage return becomes a newline. *)
Fixpoint universal_newlines (s : string) : string :=
  match s with
  | EmptyString => EmptyString
  | String c s' =>
      if Ascii.eqb c CR then
        match s' with
        | EmptyString => nl
        | String c' _ =>
            if Ascii.eqb c' NL then universal_newlines s'
            else String NL (universal_newlines s')
        end
      else String c (universal_newlines s')
  end.

(** The lines of a translated text: each with its newline, the last one
    without when the text does not end in one. *)
Fixpoint lf_lines (s : string) : list string :=
  match s with
  | EmptyString => []
  | String c s' =>
      if Ascii.eqb c NL then nl :: lf_lines s'
      else match lf_lines s' with
           | [] => [String c EmptyString]
           | l :: ls => String c l :: ls
           end
  end.

(** Iterating over a file opened with [open('r')]: the lines of its text
    after universal newlines. *)
Definition lines (s : string) : list string :=
  lf_lines (universal_newlines s).

(** [''.join(l)], what successive [f.write] calls leave in the file. *)
Definition concat (l : list string) : string :=
  foldr String.append EmptyString l.

(** [s.endswith(x)] for a one-character [x]. *)
Fixpoint endswith (x : ascii) (s : string) : bool :=
  match s with
  | EmptyString => false
  | String c s' =>
      match s' with
      | EmptyString => Ascii.eqb c x
      | _ => endswith x s'
      end
  end.

End Text.

(** The line lists that iterating over a text yields: every line but the
    last is a newline-free text followed by a newline, the last may also be
    a non-empty newline-free text without one. *)
Inductive line_list : list string → Prop :=
  | line_list_nil : line_list []
  | line_list_last l :
      Text.contains Text.NL l = false → l ≠ "" → line_list [l]
  | line_list_cons b ls :
      Text.contains Text.NL b = false → line_list ls →
      line_list ((b +:+ Text.nl) :: ls).

(** ** preprocess_list.py *)

Definition VALID_RULE_TYPES : gset string :=
  list_to_set
    [ "DOMAIN"; "DOMAIN-SUFFIX"; "DOMAIN-KEYWORD"; "GEOIP"; "IP-CIDR";
      "IP-CIDR6"; "SRC-IP-CIDR"; "PROCESS-NAME"; "PROCESS-PATH"; "RULE-SET";
      "USER-AGENT"; "URL-REGEX"; "AND"; "OR"; "NOT"; "IN" ].

Record Rule := mkRule {
  raw : string;
  type : string;
  value : string;
  is_comment : bool;
  is_empty : bool
}.

Global Instance Rule_eq_dec : EqDecision Rule.
Proof. solve_decision. Defined.

(** Python's truth value of a [str]: non-empty. *)
Definition truthy (s : string) : bool :=
  match s with EmptyString => false | _ => true end.

Definition parse_rule (line : string) : Rule :=
  let stripped := Text.strip line in
  if negb (truthy stripped) then
    mkRule line "" "" false true
  else if Text.startswith "#" stripped then
    mkRule line "" "" true false
  else if Text.contains ","%char stripped then
    let parts := Text.split1 ","%char stripped in
    let rule_type := Text.upper (Text.strip (nth 0 parts "")) in
    let rule_value :=
      if 1 <? length parts then Text.strip (nth 1 parts "") else "" in
    mkRule line rule_type rule_value false false
  else
    mkRule line "UNKNOWN" stripped false false.

Definition validate_rule (rule : Rule) (valid_types : gset string)
  : bool * string :=
  if is_comment rule || is_empty rule then (true, "")
  else if String.eqb (type rule) "UNKNOWN" then
    (false, "Unknown rule format: " +:+ Text.strip (raw rule))
  else if negb (bool_decide (type rule ∈ valid_types)) then
    (false, "Invalid rule type '" +:+ type rule +:+ "': " +:+ Text.strip (raw rule))
  else if negb (truthy (value rule)) then
    (false, "Missing value for rule type '" +:+ type rule +:+ "': "
              +:+ Text.strip (raw rule))
  else (true, "").

(** The four kinds of line the data model names, by the branch of
    [parse_rule] that a line takes. *)
Inductive Kind := Empty | Comment | Typed | Malformed.

Definition line_kind (line : string) : Kind :=
  let stripped := Text.strip line in
  if negb (truthy stripped) then Empty
  else if Text.startswith "#" stripped then Comment
  else if Text.contains ","%char stripped then Typed
  else Malformed.

(** The type token of a typed line as written, before [parse_rule]
    uppercases it. *)
Definition type_token (line : string) : string :=
  Text.strip (nth 0 (Text.split1 ","%char (Text.strip line)) "").

(** [load_rules]: the lines are numbered from 1; a line of unknown format
    leaves a warning and stays in the rule list. *)
Definition load_step (acc : list Rule * list string * nat) (line : string)
  : list Rule * list string * nat :=
  let '(rules, errors, line_num) := acc in
  let rule := parse_rule line in
  let errors' :=
    if String.eqb (type rule) "UNKNOWN" then
      errors ++ ["Line " +:+ pretty line_num +:+ ": Unknown format - "
                   +:+ Text.strip line]
    else errors in
  (rules ++ [rule], errors', S line_num).

Definition load_rules (content : string) : list Rule * list string :=
  let '(rules, errors, _) := fold_left load_step (Text.lines content) ([], [], 1) in
  (rules, errors).

(** The warning that [load_step] issues for a line, if any. *)
Definition warning (line_num : nat) (line : string) : option string :=
  if String.eqb (type (parse_rule line)) "UNKNOWN" then
    Some ("Line " +:+ pretty line_num +:+ ": Unknown format - "
            +:+ Text.strip line)
  else None.

(** The three local variables of the loop of [deduplicate_rules]. *)
Record DedupState := mkDedup {
  duplicate_counts : gmap string nat;
  result : list Rule;
  seen_in_group : gset string
}.

Definition dedup_key (rule : Rule) : string :=
  type rule +:+ "," +:+ value rule.

(** [d[key] += 1] on a [defaultdict(int)]. *)
Definition bump (key : string) (d : gmap string nat) : gmap string nat :=
  <[key := S (default 0 (d !! key))]> d.

Definition dedup_step (st : DedupState) (rule : Rule) : DedupState :=
  if is_comment rule || is_empty rule then
    mkDedup (duplicate_counts st) (result st ++ [rule]) ∅
  else
    let key := dedup_key rule in
    if negb (bool_decide (key ∈ seen_in_group st)) then
      mkDedup (duplicate_counts st) (result st ++ [rule])
              ({[key]} ∪ seen_in_group st)
    else
      mkDedup (bump key (duplicate_counts st)) (result st) (seen_in_group st).

Definition is_boundary (rule : Rule) : bool := is_comment rule || is_empty rule.

(** The deduplicator as the design words it, to compare the loop with: a
    walk over the sequence that threads the seen set and the removal counts,
    empties the set at every comment or empty rule, drops a rule whose key
    is in the set and keeps any other. *)
Fixpoint dedup_walk (seen : gset string) (counts : gmap string nat)
    (rules : list Rule) : list Rule * gmap string nat :=
  match rules with
  | [] => ([], counts)
  | r :: rest =>
      if is_boundary r then
        let w := dedup_walk ∅ counts rest in (r :: fst w, snd w)
      else if bool_decide (dedup_key r ∈ seen) then
        dedup_walk seen (bump (dedup_key r) counts) rest
      else
        let w := dedup_walk ({[dedup_key r]} ∪ seen) counts rest in
        (r :: fst w, snd w)
  end.

(** The groups of a rule sequence: the maximal runs of rules between
    comment or empty rules and the ends of the sequence. *)
Fixpoint groups (rules : list Rule) : list (list Rule) :=
  match rules with
  | [] => [[]]
  | r :: rest =>
      if is_boundary r then [] :: groups rest
      else match groups rest with
           | g :: gs => (r :: g) :: gs
           | [] => [[r]]
           end
  end.

(** No key occurs twice within any single group. *)
Definition group_unique (rules : list Rule) : Prop :=
  Forall (λ g, NoDup (dedup_key <$> g)) (groups rules).

Definition dedup_loop (rules : list Rule) : DedupState :=
  fold_left dedup_step rules (mkDedup ∅ [] ∅).

Definition deduplicate_rules (rules : list Rule)
  : list Rule * gmap string nat :=
  let st := dedup_loop rules in (result st, duplicate_counts st).

Definition validate_all_rules (rules : list Rule) : list string :=
  fold_left
    (λ errors rule,
       let '(is_valid, error_msg) := validate_rule rule VALID_RULE_TYPES in
       if negb is_valid then errors ++ [error_msg] else errors)
    rules [].

(** Successive [f.write(rule.raw)] on a freshly truncated file. *)
Definition write_rules (rules : list Rule) : string :=
  fold_left (λ written rule, written +:+ raw rule) rules "".

Section Process.

(** [pathlib]'s [Path.with_suffix], on paths as strings. *)
Variable with_suffix : string → string → string.

(** [process_file] on a file system mapping paths to text; the result is
    the returned flag and the file system left behind.  [input_path] and
    [output_path] are the paths [Path(input_path)] and [Path(output_path)]
    that the function builds first, [None] for Python's [None]; the input
    is read through [load_rules], that is through the text layer, and the
    handler of the [try] block is not reached, since no operation of the
    model raises. *)
Definition process_file (fs : gmap string string)
    (input_path : string) (output_path : option string)
    (deduplicate validate verbose : bool) : bool * gmap string string :=
  let input_file := input_path in
  match fs !! input_file with
  | None => (false, fs)
  | Some original =>
      let output_file := default input_file output_path in
      let fs :=
        if bool_decide (output_file = input_file) && deduplicate then
          <[with_suffix input_file ".list.bak" := original]> fs
        else fs in
      match fs !! input_file with
      | None => (false, fs)
      | Some content =>
          let '(rules, parse_errors) := load_rules content in
          let rules :=
            if deduplicate then fst (deduplicate_rules rules) else rules in
          let validation_errors :=
            if validate then validate_all_rules rules else [] in
          match validation_errors with
          | _ :: _ => (false, fs)
          | [] => (true, <[output_file := write_rules rules]> fs)
          end
      end
  end.

(** Names for two intermediate values of [process_file], for the
    statements below. *)

(** The rules that reach validation and writing. *)
Definition final_rules (deduplicate : bool) (content : string) : list Rule :=
  let rules := fst (load_rules content) in
  if deduplicate then fst (deduplicate_rules rules) else rules.

(** The file system after the optional backup copy. *)
Definition after_backup (fs : gmap string string)
    (input_path : string) (output_path : option string)
    (deduplicate : bool) (content : string) : gmap string string :=
  if bool_decide (default input_path output_path = input_path) && deduplicate
  then <[with_suffix input_path ".list.bak" := content]> fs
  else fs.

End Process.

(** ** convert_list_to_yaml.py *)

Definition convert_step (yaml_lines : list string) (line : string)
  : list string :=
  let stripped := Text.strip line in
  if negb (truthy stripped) then yaml_lines ++ [""]
  else if Text.startswith "#" stripped then
    let content := Text.strip (Text.lstrip_char "#" stripped) in
    yaml_lines ++ ["  # " +:+ content]
  else yaml_lines ++ ["  - " +:+ stripped].

(** The output line that [convert_step] appends for an input line. *)
Definition convert_line (line : string) : string :=
  default "" (last (convert_step [] line)).

Definition yaml_lines_of (content : string) : list string :=
  fold_left convert_step (Text.lines content) ["payload:"].

Definition convert_list_to_yaml (fs : gmap string string)
    (input_path output_path : string) : bool * gmap string string :=
  match fs !! input_path with
  | None => (false, fs)
  | Some content =>
      (true, <[output_path := Text.join Text.nl (yaml_lines_of content) +:+ Text.nl]> fs)
  end.

(** ** The rest of preprocess_list.py *)

(** The dictionary that [get_statistics] returns, and the loop that fills
    it. *)
Module Stats.

Record Statistics := mkStats {
  total_lines : nat;
  empty_lines : nat;
  comments : nat;
  rules : nat;
  by_type : gmap string nat
}.

Definition stats_step (stats : Statistics) (rule : Rule) : Statistics :=
  if is_empty rule then
    mkStats (total_lines stats) (S (empty_lines stats)) (comments stats)
            (rules stats) (by_type stats)
  else if is_comment rule then
    mkStats (total_lines stats) (empty_lines stats) (S (comments stats))
            (rules stats) (by_type stats)
  else
    mkStats (total_lines stats) (empty_lines stats) (comments stats)
            (S (rules stats)) (bump (type rule) (by_type stats)).

Definition get_statistics (rs : list Rule) : Statistics :=
  fold_left stats_step rs (mkStats (length rs) 0 0 0 ∅).

(** The three classes that [get_statistics] counts, the rules of one type,
    and an entry of the per-type table for a count. *)
Definition is_rule (r : Rule) : bool := negb (is_empty r) && negb (is_comment r).
Definition is_comment_line (r : Rule) : bool := negb (is_empty r) && is_comment r.

Definition of_type (t : string) (r : Rule) : bool :=
  is_rule r && String.eqb (type r) t.

Definition count_entry (n : nat) : option nat :=
  if n =? 0 then None else Some n.

End Stats.

(** [sum(d.values())], the [total_dups] of [process_file]. *)
Definition sum_values (d : gmap string nat) : nat :=
  map_fold (λ _ count total, count + total) 0 d.

(** The command line of the preprocessor: the parsed arguments, their
    paths in the normal form in which [Path(...)] holds them, and [main] as
    a function of them, of the file system and of the line the user types
    at the confirmation prompt; the result is the exit status and the file
    system left behind. *)
Module Cli.

Record Args := mkArgs {
  input : string;
  output : option string;
  dedup : bool;
  validate : bool;
  inplace : bool;
  verbose : bool
}.

(** The output path that [main] hands to [process_file]: an empty [-o]
    counts as none. *)
Definition usable_output (args : Args) : option string :=
  match output args with
  | Some o => if truthy o then Some o else None
  | None => None
  end.

Section Main.

Variable with_suffix : string → string → string.

Definition run (fs : gmap string string) (args : Args)
    (output_path : option string) : nat * gmap string string :=
  let '(success, fs') :=
    process_file with_suffix fs (input args) output_path
                 (dedup args) (validate args) (verbose args) in
  (if success then 0 else 1, fs').

Definition main (fs : gmap string string) (args : Args) (response : string)
  : nat * gmap string string :=
  let output_path :=
    match output args with
    | Some o => if truthy o then Some o else None
    | None => None
    end in
  if bool_decide (output_path = None) && dedup args && negb (inplace args) then
    if negb (String.eqb (Text.lower response) "y") then (0, fs)
    else run fs args output_path
  else run fs args output_path.

End Main.

End Cli.

(** * Properties *)

(** ** Facts about the text functions *)
Section TextFacts.
Import Text.

Lemma append_cons c s t : String c s +:+ t = String c (s +:+ t).
Proof. reflexivity. Qed.

Lemma append_nil_r s : s +:+ "" = s.
Proof. induction s as [|c s IH]; [done|]. by rewrite append_cons, IH. Qed.

Lemma append_assoc s t u : (s +:+ t) +:+ u = s +:+ (t +:+ u).
Proof.
  induction s as [|c s IH]; [done|]. by rewrite !append_cons, IH.
Qed.

Lemma concat_cons l ls : concat (l :: ls) = l +:+ concat ls.
Proof. reflexivity. Qed.

Lemma lstrip_head c t s : lstrip s = String c t → isspace c = false.
Proof.
  induction s as [|a s IH]; simpl; [discriminate|].
  destruct (isspace a) eqn:Ha; [exact IH|].
  intros [= <- _]. exact Ha.
Qed.

Lemma rstrip_idem s : rstrip (rstrip s) = rstrip s.
Proof.
  induction s as [|c s IH]; simpl; [done|].
  destruct (rstrip s) as [|a r] eqn:Hr.
  - destruct (isspace c) eqn:Hc; simpl; [done|]. by rewrite Hc.
  - change (rstrip (String c (String a r))) with
      (match rstrip (String a r) with
       | EmptyString => if isspace c then EmptyString else String c EmptyString
       | r' => String c r'
       end).
    by rewrite IH.
Qed.

Lemma strip_head c t s : strip s = String c t → isspace c = false.
Proof.
  unfold strip. destruct (lstrip s) as [|a u] eqn:Hl; simpl; [discriminate|].
  pose proof (lstrip_head _ _ _ Hl) as Ha.
  destruct (rstrip u); rewrite ?Ha; intros [= <- _]; exact Ha.
Qed.

Lemma strip_idem s : strip (strip s) = strip s.
Proof.
  destruct (strip s) as [|c t] eqn:Hs; [done|].
  pose proof (strip_head _ _ _ Hs) as Hc.
  unfold strip in *. cbn [lstrip]. rewrite Hc, <- Hs. apply rstrip_idem.
Qed.

End TextFacts.

Example ex_parse : parse_rule ("  domain , Example.com " +:+ Text.nl)
  = mkRule ("  domain , Example.com " +:+ Text.nl) "DOMAIN" "Example.com" false false.
Proof. vm_compute. reflexivity. Qed.

Example ex_lines : Text.lines ("a" +:+ Text.nl +:+ String "010" "b")
  = ["a" +:+ Text.nl; Text.nl; "b"].
Proof. vm_compute. reflexivity. Qed.

Example ex_load :
  load_rules ("#A" +:+ Text.nl +:+ "justsometext" +:+ Text.nl +:+ "DOMAIN,x.com")
  = ([ mkRule ("#A" +:+ Text.nl) "" "" true false;
       mkRule ("justsometext" +:+ Text.nl) "UNKNOWN" "justsometext" false false;
       mkRule "DOMAIN,x.com" "DOMAIN" "x.com" false false ],
     ["Line 2: Unknown format - justsometext"]).
Proof. vm_compute. reflexivity. Qed.

(** ** The validator *)

Lemma unknown_not_valid : "UNKNOWN" ∉ VALID_RULE_TYPES.
Proof. apply (bool_decide_eq_false_1 _). vm_compute. reflexivity. Qed.

Lemma validate_rule_boundary r V :
  is_comment r = true ∨ is_empty r = true → validate_rule r V = (true, "").
Proof.
  intros H. unfold validate_rule.
  destruct (is_comment r), (is_empty r); simpl; try done. by destruct H.
Qed.

Lemma parse_rule_typed line :
  line_kind line = Typed →
  is_comment (parse_rule line) = false ∧ is_empty (parse_rule line) = false ∧
  Text.strip (value (parse_rule line)) = value (parse_rule line).
Proof.
  unfold line_kind, parse_rule.
  destruct (negb (truthy (Text.strip line))); [discriminate|].
  destruct (Text.startswith "#" (Text.strip line)); [discriminate|].
  destruct (Text.contains "," (Text.strip line)); [|discriminate].
  intros _. simpl. repeat split.
  destruct (1 <? _); [apply strip_idem | done].
Qed.

(** C3.  Empty and comment rules validate with an empty message; a typed
    line fails validation exactly when its type is outside the vocabulary
    or its trimmed value is empty.  [FOO,bar] and [DOMAIN,] are rejected,
    [DOMAIN-SUFFIX,example.com] is accepted. *)
Theorem validate_rule_spec :
  (∀ line, line_kind line = Empty ∨ line_kind line = Comment →
     validate_rule (parse_rule line) VALID_RULE_TYPES = (true, "")) ∧
  (∀ line, line_kind line = Typed →
     (fst (validate_rule (parse_rule line) VALID_RULE_TYPES) = false ↔
      type (parse_rule line) ∉ VALID_RULE_TYPES ∨
      Text.strip (value (parse_rule line)) = "")) ∧
  fst (validate_rule (parse_rule "FOO,bar") VALID_RULE_TYPES) = false ∧
  fst (validate_rule (parse_rule "DOMAIN,") VALID_RULE_TYPES) = false ∧
  validate_rule (parse_rule "DOMAIN-SUFFIX,example.com") VALID_RULE_TYPES
    = (true, "").
Proof.
  split; [|split; [|repeat split; vm_compute; reflexivity]].
  - intros line H. apply validate_rule_boundary.
    unfold line_kind, parse_rule in *.
    destruct (negb (truthy (Text.strip line))); [by right|].
    destruct (Text.startswith "#" (Text.strip line)); [by left|].
    destruct (Text.contains "," (Text.strip line)); by destruct H.
  - intros line Hk.
    destruct (parse_rule_typed line Hk) as (Hc & He & Hv).
    rewrite Hv. unfold validate_rule. rewrite Hc, He. simpl.
    destruct (String.eqb_spec (type (parse_rule line)) "UNKNOWN") as [->|_].
    { simpl. split; [|done]. intros _. left. apply unknown_not_valid. }
    destruct (bool_decide_reflect (type (parse_rule line) ∈ VALID_RULE_TYPES))
      as [Hin|Hnin]; simpl.
    + destruct (value (parse_rule line)); simpl; split; try done.
      * by right.
      * intros [?|?]; done.
    + split; [|done]. intros _. by left.
Qed.

Lemma validate_rule_spec_witness :
  line_kind "DOMAIN," = Typed ∧
  (fst (validate_rule (parse_rule "DOMAIN,") VALID_RULE_TYPES) = false ↔
   type (parse_rule "DOMAIN,") ∉ VALID_RULE_TYPES ∨
   Text.strip (value (parse_rule "DOMAIN,")) = "").
Proof.
  split; [reflexivity|].
  apply (proj1 (proj2 validate_rule_spec) "DOMAIN,"). reflexivity.
Defined.

(** ** The group-scoped deduplicator *)

Lemma dedup_loop_snoc rules r :
  dedup_loop (rules ++ [r]) = dedup_step (dedup_loop rules) r.
Proof. unfold dedup_loop. by rewrite fold_left_app. Qed.

Lemma dedup_fold_walk rules st :
  let st' := fold_left dedup_step rules st in
  let w := dedup_walk (seen_in_group st) (duplicate_counts st) rules in
  result st' = result st ++ fst w ∧ duplicate_counts st' = snd w.
Proof.
  revert st. induction rules as [|r rules IH]; intros st; simpl.
  { by rewrite app_nil_r. }
  destruct (IH (dedup_step st r)) as [-> ->].
  unfold dedup_step, is_boundary.
  destruct (is_comment r || is_empty r); simpl.
  { by rewrite <- app_assoc. }
  destruct (bool_decide (dedup_key r ∈ seen_in_group st)); simpl; [done|].
  by rewrite <- app_assoc.
Qed.

Lemma deduplicate_rules_walk rules :
  deduplicate_rules rules = dedup_walk ∅ ∅ rules.
Proof.
  unfold deduplicate_rules, dedup_loop.
  destruct (dedup_fold_walk rules (mkDedup ∅ [] ∅)) as [Hr Hc].
  simpl in *. rewrite Hr, Hc. by destruct (dedup_walk ∅ ∅ rules).
Qed.

Lemma dedup_walk_sublist rules : ∀ seen counts,
  sublist (fst (dedup_walk seen counts rules)) rules.
Proof.
  induction rules as [|r rules IH]; intros seen counts; simpl; [constructor|].
  destruct (is_boundary r).
  { apply sublist_skip, IH. }
  destruct (bool_decide (dedup_key r ∈ seen)).
  - apply sublist_cons, IH.
  - apply sublist_skip, IH.
Qed.

(** C1.  The loop of [deduplicate_rules] is the in-order walk of the design:
    a comment or empty rule empties the seen set and is kept; any other rule
    whose key is in the set is dropped and bumps the removal count of its
    key by one; any other rule enters the set and is kept; the kept rules are
    a subsequence of the input.  On the groups
    [#A / DOMAIN,x.com / DOMAIN,x.com / #B / DOMAIN,x.com] exactly the second
    occurrence in group A is removed. *)
Theorem deduplicate_rules_spec :
  (∀ rules, deduplicate_rules rules = dedup_walk ∅ ∅ rules) ∧
  (∀ rules r,
     let st := dedup_loop rules in
     let st' := dedup_loop (rules ++ [r]) in
     let key := type r +:+ "," +:+ value r in
     if is_comment r || is_empty r then
       seen_in_group st' = ∅ ∧ result st' = result st ++ [r] ∧
       duplicate_counts st' = duplicate_counts st
     else if bool_decide (key ∈ seen_in_group st) then
       seen_in_group st' = seen_in_group st ∧ result st' = result st ∧
       duplicate_counts st' !! key
         = Some (S (default 0 (duplicate_counts st !! key))) ∧
       (∀ k, k ≠ key → duplicate_counts st' !! k = duplicate_counts st !! k)
     else
       seen_in_group st' = {[key]} ∪ seen_in_group st ∧
       result st' = result st ++ [r] ∧
       duplicate_counts st' = duplicate_counts st) ∧
  (∀ rules, sublist (fst (deduplicate_rules rules)) rules) ∧
  deduplicate_rules
    (fst (load_rules ("#A" +:+ Text.nl +:+ "DOMAIN,x.com" +:+ Text.nl +:+
                      "DOMAIN,x.com" +:+ Text.nl +:+ "#B" +:+ Text.nl +:+
                      "DOMAIN,x.com" +:+ Text.nl)))
  = ([ parse_rule ("#A" +:+ Text.nl); parse_rule ("DOMAIN,x.com" +:+ Text.nl);
       parse_rule ("#B" +:+ Text.nl); parse_rule ("DOMAIN,x.com" +:+ Text.nl) ],
     {["DOMAIN,x.com" := 1]}).
Proof.
  split; [exact deduplicate_rules_walk|]. split; [|split].
  - intros rules r st st' key. subst st'. rewrite dedup_loop_snoc. fold st.
    unfold dedup_step, dedup_key. fold key.
    destruct (is_comment r || is_empty r); simpl; [done|].
    destruct (bool_decide (key ∈ seen_in_group st)); simpl; [|done].
    unfold bump. repeat split.
    + apply lookup_insert_eq.
    + intros k Hk. by apply lookup_insert_ne.
  - intros rules. rewrite deduplicate_rules_walk. apply dedup_walk_sublist.
  - vm_compute. reflexivity.
Qed.

Lemma dedup_walk_idem rules : ∀ seen counts counts',
  dedup_walk seen counts' (fst (dedup_walk seen counts rules))
  = (fst (dedup_walk seen counts rules), counts').
Proof.
  induction rules as [|r rules IH]; intros seen counts counts'; simpl; [done|].
  destruct (is_boundary r) eqn:Hb; simpl.
  { by rewrite Hb, IH. }
  destruct (bool_decide (dedup_key r ∈ seen)) eqn:Hin; simpl; [apply IH|].
  by rewrite Hb, Hin, IH.
Qed.

(** C5.  Deduplication is idempotent: a second pass over the result of a
    first returns the same sequence with an empty removal map. *)
Theorem deduplicate_rules_idempotent rules :
  deduplicate_rules (fst (deduplicate_rules rules))
  = (fst (deduplicate_rules rules), ∅).
Proof. rewrite !deduplicate_rules_walk. apply dedup_walk_idem. Qed.

Lemma groups_head rules : ∃ g gs, groups rules = g :: gs.
Proof.
  destruct rules as [|r rules]; simpl; [eauto|].
  destruct (is_boundary r); [eauto|]. destruct (groups rules); eauto.
Qed.

Lemma dedup_walk_unique rules : ∀ seen counts g gs,
  groups rules = g :: gs →
  NoDup (dedup_key <$> g) →
  (∀ k, k ∈ dedup_key <$> g → k ∉ seen) →
  Forall (λ g, NoDup (dedup_key <$> g)) gs →
  dedup_walk seen counts rules = (rules, counts).
Proof.
  induction rules as [|r rules IH]; intros seen counts g gs; simpl; [done|].
  destruct (groups_head rules) as (g' & gs' & Hg). rewrite Hg.
  destruct (is_boundary r).
  - intros [= <- <-] _ _ Hgs. inversion Hgs as [|? ? Hg' Hgs']; subst.
    by rewrite (IH ∅ counts g' gs').
  - intros [= <- <-] Hnd Hseen Hgs. rewrite fmap_cons in Hnd, Hseen.
    apply NoDup_cons in Hnd as [Hr Hnd].
    rewrite bool_decide_eq_false_2 by (apply Hseen; set_solver).
    rewrite (IH _ counts g' gs'); try done.
    intros k Hk. specialize (Hseen k).
    rewrite elem_of_cons in Hseen. apply not_elem_of_union. split; [|by auto].
    apply not_elem_of_singleton. by intros ->.
Qed.

Lemma deduplicate_rules_unique rules :
  group_unique rules → deduplicate_rules rules = (rules, ∅).
Proof.
  unfold group_unique. destruct (groups_head rules) as (g & gs & Hg).
  rewrite Hg. intros H. inversion H; subst.
  rewrite deduplicate_rules_walk.
  apply (dedup_walk_unique rules ∅ ∅ g gs); try done.
Qed.

(** ** Loading and writing *)

Lemma lf_lines_concat content : Text.concat (Text.lf_lines content) = content.
Proof.
  induction content as [|c s IH]; simpl; [done|].
  destruct (Ascii.eqb_spec c Text.NL) as [->|_].
  { by rewrite concat_cons, IH. }
  destruct (Text.lf_lines s) as [|l ls]; [by rewrite <- IH|].
  rewrite concat_cons in *. by rewrite append_cons, IH.
Qed.

Lemma lines_concat content :
  Text.concat (Text.lines content) = Text.universal_newlines content.
Proof. apply lf_lines_concat. Qed.

Lemma universal_newlines_id s :
  Text.contains Text.CR s = false → Text.universal_newlines s = s.
Proof.
  induction s as [|c s IH]; simpl; [done|].
  intros [Hc Hs]%orb_false_iff. by rewrite Hc, IH.
Qed.

Lemma load_fold ls : ∀ acc,
  (fold_left load_step ls acc).1.1 = acc.1.1 ++ (parse_rule <$> ls).
Proof.
  induction ls as [|l ls IH]; intros [[rules errors] n]; simpl.
  { by rewrite app_nil_r. }
  rewrite IH. simpl. by rewrite <- app_assoc.
Qed.

Lemma load_rules_fst content :
  fst (load_rules content) = parse_rule <$> Text.lines content.
Proof.
  unfold load_rules. pose proof (load_fold (Text.lines content) ([], [], 1)) as H.
  destruct (fold_left _ _ _) as [[rules errors] n]. exact H.
Qed.

Lemma raw_parse_rule line : raw (parse_rule line) = line.
Proof.
  unfold parse_rule. repeat (destruct (_ : bool); simpl; try done).
Qed.

Lemma raw_parsed (ls : list string) : raw <$> (parse_rule <$> ls) = ls.
Proof.
  induction ls as [|l ls IH]; [done|].
  rewrite !fmap_cons, raw_parse_rule. by f_equal.
Qed.

Lemma write_fold rules : ∀ written,
  fold_left (λ written rule, written +:+ raw rule) rules written
  = written +:+ Text.concat (raw <$> rules).
Proof.
  induction rules as [|r rules IH]; intros written; simpl.
  { by rewrite append_nil_r. }
  by rewrite IH, append_assoc.
Qed.

Lemma write_rules_concat rules :
  write_rules rules = Text.concat (raw <$> rules).
Proof. unfold write_rules. by rewrite write_fold. Qed.

(** C6, as the code has it.  A rule sequence with no key twice within any
    group passes through the deduplicator unchanged, and the file rewritten
    from the rules loaded from a file is the text of that file as the text
    layer reads it, with every line ending a newline; it is the stored text
    itself when that has no carriage return. *)
Theorem dedup_round_trip :
  (∀ rules, group_unique rules → deduplicate_rules rules = (rules, ∅)) ∧
  (∀ content,
     group_unique (fst (load_rules content)) →
     write_rules (fst (deduplicate_rules (fst (load_rules content))))
     = Text.universal_newlines content) ∧
  (∀ content,
     group_unique (fst (load_rules content)) →
     Text.contains Text.CR content = false →
     write_rules (fst (deduplicate_rules (fst (load_rules content))))
     = content).
Proof.
  assert (H2 : ∀ content,
     group_unique (fst (load_rules content)) →
     write_rules (fst (deduplicate_rules (fst (load_rules content))))
     = Text.universal_newlines content).
  { intros content H. rewrite (deduplicate_rules_unique _ H). simpl.
    by rewrite write_rules_concat, load_rules_fst, raw_parsed, lines_concat. }
  split; [exact deduplicate_rules_unique|]. split; [exact H2|].
  intros content H Hcr. by rewrite H2, universal_newlines_id.
Qed.

Lemma dedup_round_trip_witness :
  let content := "#A" +:+ Text.nl +:+ "DOMAIN,x.com" +:+ Text.nl +:+
                 "#B" +:+ Text.nl +:+ "DOMAIN,x.com" in
  group_unique (fst (load_rules content)) ∧
  write_rules (fst (deduplicate_rules (fst (load_rules content)))) = content.
Proof.
  intros content.
  assert (H : group_unique (fst (load_rules content))).
  { apply (bool_decide_unpack _). vm_compute. exact I. }
  split; [exact H|].
  exact (proj2 (proj2 dedup_round_trip) content H eq_refl).
Defined.

(** C6, as the claim has it, fails: a file with carriage returns before its
    newlines and no duplicate is rewritten with bare newlines, and so not
    byte for byte. *)
Lemma round_trip_not_byte_identical :
  ¬ ∀ content,
      group_unique (fst (load_rules content)) →
      write_rules (fst (deduplicate_rules (fst (load_rules content))))
      = content.
Proof.
  intros H.
  specialize (H ("DOMAIN,a.com" +:+ String Text.CR Text.nl)).
  assert (Hu : group_unique
                 (fst (load_rules ("DOMAIN,a.com" +:+ String Text.CR Text.nl)))).
  { apply (bool_decide_unpack _). vm_compute. exact I. }
  specialize (H Hu). vm_compute in H. discriminate H.
Qed.

Section LineFacts.
Import Text.

Lemma endswith_cons x c s : s ≠ "" → endswith x (String c s) = endswith x s.
Proof. by destruct s. Qed.

Lemma endswith_append x s t : t ≠ "" → endswith x (s +:+ t) = endswith x t.
Proof.
  intros Ht. induction s as [|c s IH]; [done|].
  rewrite append_cons, endswith_cons; [done|]. by destruct s, t.
Qed.

Lemma lf_lines_nil s : lf_lines s = [] → s = "".
Proof.
  destruct s as [|c s]; simpl; [done|].
  destruct (Ascii.eqb c NL); [done|]. by destruct (lf_lines s).
Qed.

Lemma lf_lines_nonempty s : Forall (λ l, l ≠ "") (lf_lines s).
Proof.
  induction s as [|c s IH]; simpl; [constructor|].
  destruct (Ascii.eqb c NL); [by constructor|].
  destruct (lf_lines s); inversion IH; by repeat constructor.
Qed.

Lemma lines_nonempty s : Forall (λ l, l ≠ "") (lines s).
Proof. apply lf_lines_nonempty. Qed.

Lemma universal_newlines_nonempty s : s ≠ "" → universal_newlines s ≠ "".
Proof.
  induction s as [|c s IH]; [done|]. intros _. simpl.
  destruct (Ascii.eqb c CR); [|done].
  destruct s as [|c' s]; [done|].
  destruct (Ascii.eqb c' NL); [by apply IH|done].
Qed.

Lemma universal_newlines_endswith s :
  endswith NL s = true → endswith NL (universal_newlines s) = true.
Proof.
  induction s as [|c s IH]; [done|].
  destruct s as [|c' s].
  { simpl. destruct (Ascii.eqb_spec c CR) as [->|_]; done. }
  intros H. rewrite endswith_cons in H by done. specialize (IH H).
  assert (Hne : universal_newlines (String c' s) ≠ "")
    by by apply universal_newlines_nonempty.
  change (universal_newlines (String c (String c' s)))
    with (if Ascii.eqb c CR then
            if Ascii.eqb c' NL then universal_newlines (String c' s)
            else String NL (universal_newlines (String c' s))
          else String c (universal_newlines (String c' s))).
  destruct (Ascii.eqb c CR); [destruct (Ascii.eqb c' NL); [done|]|];
    by rewrite endswith_cons.
Qed.

Lemma lf_lines_all_newline s :
  endswith NL s = true → Forall (λ l, endswith NL l = true) (lf_lines s).
Proof.
  induction s as [|c s IH]; simpl; [constructor|].
  destruct (Ascii.eqb_spec c NL) as [->|Hc].
  - intros H. constructor; [done|].
    destruct s; [constructor|]. by apply IH.
  - destruct s as [|a s]; [by destruct (Ascii.eqb_spec c NL)|].
    intros H. specialize (IH H).
    pose proof (lf_lines_nonempty (String a s)) as Hne.
    destruct (lf_lines (String a s)) as [|l ls] eqn:Hl.
    { by apply lf_lines_nil in Hl. }
    inversion IH; inversion Hne; subst. constructor; [|done].
    by rewrite endswith_cons.
Qed.

Lemma lines_all_newline s :
  endswith NL s = true → Forall (λ l, endswith NL l = true) (lines s).
Proof. intros H. by apply lf_lines_all_newline, universal_newlines_endswith. Qed.

Lemma concat_endswith x (ls : list string) l :
  Forall (λ l, l ≠ "") ls → last ls = Some l →
  endswith x (concat ls) = endswith x l.
Proof.
  induction ls as [|a ls IH]; [done|].
  intros Hne Hlast. inversion Hne as [|? ? Ha Hls]; subst.
  rewrite concat_cons. destruct ls as [|b ls].
  { injection Hlast as ->. simpl. by rewrite append_nil_r. }
  rewrite endswith_append; [by apply IH|].
  inversion Hls; subst. rewrite concat_cons. by destruct b.
Qed.

End LineFacts.

(** ** Validation of a rule sequence *)

Lemma validate_fold rules : ∀ errors,
  fold_left
    (λ errors rule,
       let '(is_valid, error_msg) := validate_rule rule VALID_RULE_TYPES in
       if negb is_valid then errors ++ [error_msg] else errors)
    rules errors
  = errors ++ validate_all_rules rules.
Proof.
  unfold validate_all_rules.
  induction rules as [|r rules IH]; intros errors; simpl.
  { by rewrite app_nil_r. }
  rewrite IH. rewrite (IH (let '(_, _) := _ in _)).
  destruct (validate_rule r VALID_RULE_TYPES) as [[] msg]; simpl; [done|].
  by rewrite <- app_assoc.
Qed.

Lemma validate_all_rules_cons r rules :
  validate_all_rules (r :: rules)
  = validate_all_rules [r] ++ validate_all_rules rules.
Proof.
  unfold validate_all_rules at 1 2. simpl. by rewrite validate_fold.
Qed.

Lemma validate_all_rules_one r :
  validate_all_rules [r]
  = if fst (validate_rule r VALID_RULE_TYPES) then []
    else [snd (validate_rule r VALID_RULE_TYPES)].
Proof.
  unfold validate_all_rules. simpl.
  by destruct (validate_rule r VALID_RULE_TYPES) as [[] msg].
Qed.

(** C4, as the code has it.  The errors of a sequence are the failures of
    its rules taken one by one, in the order of the sequence; each message
    ends with the stripped raw text of the rule it rejects. *)
Theorem validate_all_rules_spec :
  (∀ rules,
     validate_all_rules rules
     = List.concat ((λ r, validate_all_rules [r]) <$> rules)) ∧
  (∀ r,
     validate_all_rules [r]
     = if fst (validate_rule r VALID_RULE_TYPES) then []
       else [snd (validate_rule r VALID_RULE_TYPES)]) ∧
  (∀ r,
     fst (validate_rule r VALID_RULE_TYPES) = false →
     ∃ p, snd (validate_rule r VALID_RULE_TYPES) = p +:+ Text.strip (raw r)).
Proof.
  split; [|split; [exact validate_all_rules_one|]].
  - induction rules as [|r rules IH]; [done|].
    rewrite validate_all_rules_cons, IH. reflexivity.
  - intros r. unfold validate_rule.
    destruct (is_comment r || is_empty r); [done|].
    destruct (String.eqb _ _); [eauto|].
    destruct (negb (bool_decide _)); simpl.
    { intros _. eexists. by rewrite <- !append_assoc. }
    destruct (negb (truthy _)); simpl; [|done].
    intros _. eexists. by rewrite <- !append_assoc.
Qed.

Lemma validate_all_rules_spec_witness :
  fst (validate_rule (parse_rule "FOO,bar  ") VALID_RULE_TYPES) = false ∧
  ∃ p, snd (validate_rule (parse_rule "FOO,bar  ") VALID_RULE_TYPES)
       = p +:+ Text.strip (raw (parse_rule "FOO,bar  ")).
Proof.
  split; [reflexivity|].
  apply (proj2 (proj2 validate_all_rules_spec)). reflexivity.
Defined.

(** C4, as the claim has it, fails: no line number can be read off a
    validation error, since the same offending line yields the same message
    at every position of the sequence. *)
Lemma validation_error_has_no_line_number :
  ¬ ∃ line_of : string → nat,
      ∀ (rules : list Rule) (i : nat) (r : Rule),
        rules !! i = Some r →
        fst (validate_rule r VALID_RULE_TYPES) = false →
        line_of (snd (validate_rule r VALID_RULE_TYPES)) = S i.
Proof.
  intros [line_of H].
  pose (bad := parse_rule "FOO,bar").
  pose proof (H [bad; bad] 0 bad eq_refl eq_refl) as H0.
  pose proof (H [bad; bad] 1 bad eq_refl eq_refl) as H1.
  rewrite H0 in H1. discriminate.
Qed.

Example ex_validate_all :
  validate_all_rules (fst (load_rules
    ("FOO,bar" +:+ Text.nl +:+ "# c" +:+ Text.nl +:+ "FOO,bar" +:+ Text.nl +:+
     "DOMAIN," +:+ Text.nl +:+ "justsometext")))
  = [ "Invalid rule type 'FOO': FOO,bar"; "Invalid rule type 'FOO': FOO,bar";
      "Missing value for rule type 'DOMAIN': DOMAIN,";
      "Unknown rule format: justsometext" ].
Proof. vm_compute. reflexivity. Qed.

(** ** The pipeline *)

Section ProcessFacts.
Variable with_suffix : string → string → string.

Lemma after_backup_input fs inp out d content :
  fs !! inp = Some content →
  after_backup with_suffix fs inp out d content !! inp = Some content.
Proof.
  intros H. unfold after_backup. destruct (_ && _); [|done].
  rewrite lookup_insert. by case_decide.
Qed.

Lemma after_backup_output fs inp out d content :
  fs !! inp = Some content →
  after_backup with_suffix fs inp out d content !! default inp out
  = fs !! default inp out.
Proof.
  intros H. unfold after_backup.
  destruct (bool_decide_reflect (default inp out = inp)) as [->|]; [|done].
  destruct d; simpl; [|done].
  rewrite lookup_insert. case_decide; by rewrite ?H.
Qed.

Lemma after_backup_other fs inp out d content p :
  p ≠ with_suffix inp ".list.bak" →
  after_backup with_suffix fs inp out d content !! p = fs !! p.
Proof.
  intros Hp. unfold after_backup. destruct (_ && _); [|done].
  by rewrite lookup_insert_ne.
Qed.

Lemma process_file_eq fs inp out d v vb content :
  fs !! inp = Some content →
  process_file with_suffix fs inp out d v vb
  = match (if v then validate_all_rules (final_rules d content) else []) with
    | _ :: _ => (false, after_backup with_suffix fs inp out d content)
    | [] =>
        (true, <[default inp out := write_rules (final_rules d content)]>
                 (after_backup with_suffix fs inp out d content))
    end.
Proof.
  intros H. unfold process_file. rewrite H.
  fold (after_backup with_suffix fs inp out d content).
  rewrite (after_backup_input _ _ _ _ _ H).
  unfold final_rules. by destruct (load_rules content) as [rules errors].
Qed.

End ProcessFacts.

(** C2.  With validation requested, a rule sequence (after the optional
    deduplication) with at least one validation error makes [process_file]
    return failure and leaves the output file as it was, the backup copy
    being the only change to the file system; a successful run is one whose
    rules all validate or one without validation. *)
Theorem process_file_fail_closed
    (with_suffix : string → string → string) (fs : gmap string string)
    (inp : string) (out : option string) (d vb : bool) (content : string) :
  fs !! inp = Some content →
  (validate_all_rules (final_rules d content) ≠ [] →
   ∃ fs', process_file with_suffix fs inp out d true vb = (false, fs') ∧
          fs' !! default inp out = fs !! default inp out ∧
          (∀ p, p ≠ with_suffix inp ".list.bak" → fs' !! p = fs !! p)) ∧
  (∀ v fs', process_file with_suffix fs inp out d v vb = (true, fs') →
            v = false ∨ validate_all_rules (final_rules d content) = []).
Proof.
  intros H. split.
  - intros Herr. rewrite (process_file_eq _ _ _ _ _ _ _ _ H).
    destruct (validate_all_rules (final_rules d content)); [done|].
    eexists. split; [done|]. split.
    + by apply after_backup_output.
    + intros p Hp. by apply after_backup_other.
  - intros v fs'. rewrite (process_file_eq _ _ _ _ _ _ _ _ H).
    destruct v; [|by left].
    destruct (validate_all_rules (final_rules d content)); [by right|done].
Qed.

Lemma process_file_fail_closed_witness :
  let fs : gmap string string :=
    {[ "rules.list" := "DOMAIN,a.com" +:+ Text.nl +:+ "FOO,bar" +:+ Text.nl ]} in
  ∃ fs', process_file (λ p s, p +:+ s) fs "rules.list" None true true false
         = (false, fs') ∧
         fs' !! "rules.list" = fs !! "rules.list".
Proof.
  intros fs.
  destruct (proj1 (process_file_fail_closed (λ p s, p +:+ s) fs "rules.list"
                     None true false _ eq_refl)) as (fs' & Hrun & Hout & _).
  { vm_compute. discriminate. }
  exists fs'. split; [exact Hrun | exact Hout].
Defined.

Lemma Forall_of_sublist {A} (P : A → Prop) (l k : list A) :
  sublist l k → Forall P k → Forall P l.
Proof.
  rewrite !Forall_forall. intros Hs H x Hx. eapply H, elem_of_sublist; done.
Qed.

Lemma final_rules_raw d content :
  sublist (raw <$> final_rules d content) (Text.lines content).
Proof.
  assert (sublist (final_rules d content) (parse_rule <$> Text.lines content))
    as Hs.
  { unfold final_rules. rewrite load_rules_fst. destruct d; [|done].
    rewrite deduplicate_rules_walk. apply dedup_walk_sublist. }
  apply (fmap_sublist raw) in Hs. by rewrite raw_parsed in Hs.
Qed.

(** C7, as the code has it.  A successful run leaves in the output file the
    kept lines of the input, in order and verbatim, with nothing added: the
    output ends in a newline exactly when its last line does, and so
    whenever the input ends in a newline and a line is written. *)
Theorem process_file_output
    (with_suffix : string → string → string) (fs fs' : gmap string string)
    (inp : string) (out : option string) (d v vb : bool) (content : string) :
  fs !! inp = Some content →
  process_file with_suffix fs inp out d v vb = (true, fs') →
  ∃ kept,
    kept = raw <$> final_rules d content ∧
    sublist kept (Text.lines content) ∧
    fs' !! default inp out = Some (Text.concat kept) ∧
    (∀ l, last kept = Some l →
          Text.endswith Text.NL (Text.concat kept) = Text.endswith Text.NL l) ∧
    (Text.endswith Text.NL content = true → kept ≠ [] →
     Text.endswith Text.NL (Text.concat kept) = true).
Proof.
  intros H. rewrite (process_file_eq _ _ _ _ _ _ _ _ H).
  destruct (if v then _ else _); [|done]. intros [= <-].
  pose proof (final_rules_raw d content) as Hsub.
  assert (Hne : Forall (λ l, l ≠ "") (raw <$> final_rules d content)).
  { eapply Forall_of_sublist; [done|apply lines_nonempty]. }
  eexists. split; [done|]. split; [done|]. split; [|split].
  - by rewrite lookup_insert_eq, write_rules_concat.
  - intros l Hl. by apply concat_endswith.
  - intros Hnl Hkept.
    destruct (last (raw <$> final_rules d content)) as [l|] eqn:Hl.
    2: { by apply last_None in Hl. }
    rewrite (concat_endswith _ _ l Hne Hl).
    assert (Hall : Forall (λ l, Text.endswith Text.NL l = true)
                     (raw <$> final_rules d content)).
    { eapply Forall_of_sublist; [done|by apply lines_all_newline]. }
    rewrite Forall_forall in Hall. apply Hall.
    apply last_Some in Hl as [l' ->]. set_solver.
Qed.

Lemma process_file_output_witness :
  let fs : gmap string string :=
    {[ "rules.list" := "DOMAIN,a.com" +:+ Text.nl +:+ "DOMAIN,a.com" ]} in
  ∃ fs' kept,
    process_file (λ p s, p +:+ s) fs "rules.list" (Some "out.list") true true false
      = (true, fs') ∧
    fs' !! "out.list" = Some (Text.concat kept) ∧
    kept = ["DOMAIN,a.com" +:+ Text.nl].
Proof.
  intros fs. eexists.
  destruct (process_file_output (λ p s, p +:+ s) fs _ "rules.list"
              (Some "out.list") true true false _ eq_refl eq_refl)
    as (kept & Hkept & _ & Hout & _).
  exists kept. split; [reflexivity|]. split; [exact Hout|].
  rewrite Hkept. reflexivity.
Defined.

(** C7, as the claim has it, fails: an input whose last line has no newline
    is written back without one. *)
Lemma output_without_trailing_newline :
  ¬ ∀ (with_suffix : string → string → string) (fs fs' : gmap string string)
      (inp : string) (out : option string) (d v vb : bool) (written : string),
      process_file with_suffix fs inp out d v vb = (true, fs') →
      fs' !! default inp out = Some written →
      written ≠ "" →
      Text.endswith Text.NL written = true.
Proof.
  intros H.
  specialize (H (λ p s, p +:+ s) {[ "rules.list" := "DOMAIN,a.com" ]}
                _ "rules.list" (Some "out.list") false false false
                "DOMAIN,a.com" eq_refl eq_refl).
  by specialize (H ltac:(done)).
Qed.

(** ** The converter *)

Lemma convert_step_line yaml line :
  convert_step yaml line = yaml ++ [convert_line line].
Proof.
  unfold convert_line, convert_step.
  destruct (negb (truthy (Text.strip line))); [done|].
  by destruct (Text.startswith "#" (Text.strip line)).
Qed.

Lemma convert_fold ls : ∀ yaml,
  fold_left convert_step ls yaml = yaml ++ (convert_line <$> ls).
Proof.
  induction ls as [|l ls IH]; intros yaml; simpl.
  { by rewrite app_nil_r. }
  by rewrite IH, convert_step_line, <- app_assoc.
Qed.

Lemma join_newline (l : list string) : ∀ a,
  Text.join Text.nl (a :: l) +:+ Text.nl
  = a +:+ Text.nl +:+ Text.concat ((λ s, s +:+ Text.nl) <$> l).
Proof.
  induction l as [|b l IH]; intros a; [done|].
  change (Text.join Text.nl (a :: b :: l))
    with (a +:+ Text.nl +:+ Text.join Text.nl (b :: l)).
  rewrite !append_assoc, IH, fmap_cons, concat_cons.
  by rewrite !append_assoc.
Qed.

(** C8.  The converted file is the line [payload:] followed by one output
    line per input line, each a function of that input line alone: empty for
    a blank line, the indented comment with one space after the marker for a
    comment line, the indented sequence entry of the stripped line
    otherwise. *)
Theorem convert_list_to_yaml_spec :
  (∀ (fs : gmap string string) inp out content,
     fs !! inp = Some content →
     convert_list_to_yaml fs inp out
     = (true,
        <[out := "payload:" +:+ Text.nl +:+
                 Text.concat ((λ l, convert_line l +:+ Text.nl)
                                <$> Text.lines content)]> fs)) ∧
  (∀ content,
     yaml_lines_of content = "payload:" :: (convert_line <$> Text.lines content)) ∧
  (∀ line,
     let stripped := Text.strip line in
     (stripped = "" → convert_line line = "") ∧
     (stripped ≠ "" → Text.startswith "#" stripped = true →
      ∃ content,
        convert_line line = "  # " +:+ content ∧
        content = Text.strip (Text.lstrip_char "#" stripped) ∧
        (∀ c t, content = String c t → Text.isspace c = false)) ∧
     (stripped ≠ "" → Text.startswith "#" stripped = false →
      convert_line line = "  - " +:+ stripped)) ∧
  convert_line ("# My Rules" +:+ Text.nl) = "  # My Rules" ∧
  convert_line ("DOMAIN,example.com" +:+ Text.nl) = "  - DOMAIN,example.com" ∧
  convert_line Text.nl = "".
Proof.
  assert (Hlines : ∀ content,
    yaml_lines_of content = "payload:" :: (convert_line <$> Text.lines content)).
  { intros content. unfold yaml_lines_of. by rewrite convert_fold. }
  split; [|split; [exact Hlines|split; [|repeat split; vm_compute; reflexivity]]].
  - intros fs inp out content H. unfold convert_list_to_yaml.
    rewrite H, Hlines, join_newline. do 3 f_equal.
    by rewrite <- list_fmap_compose.
  - intros line stripped. unfold convert_line, convert_step. fold stripped.
    destruct stripped as [|c t] eqn:Hs; simpl.
    { repeat split; done. }
    split; [done|]. split; intros _ ->; [|done].
    eexists. repeat split. intros c' t' Hc. eapply strip_head, Hc.
Qed.

Lemma convert_list_to_yaml_spec_witness :
  let fs : gmap string string :=
    {[ "a.list" := "# My Rules" +:+ Text.nl +:+ Text.nl +:+ "DOMAIN,example.com" ]} in
  convert_list_to_yaml fs "a.list" "a.yaml"
  = (true,
     <["a.yaml" := "payload:" +:+ Text.nl +:+ "  # My Rules" +:+ Text.nl +:+
                   Text.nl +:+ "  - DOMAIN,example.com" +:+ Text.nl]> fs).
Proof.
  intros fs.
  exact (proj1 convert_list_to_yaml_spec fs "a.list" "a.yaml" _ eq_refl).
Defined.

(** ** Keys of the deduplicator *)

Lemma upper_swapcase c : Text.upper_char (Text.swapcase_char c) = Text.upper_char c.
Proof. destruct c as [[] [] [] [] [] [] [] []]; reflexivity. Qed.

Lemma upper_same_modulo_case s : ∀ t,
  Text.same_modulo_case s t = true → Text.upper s = Text.upper t.
Proof.
  induction s as [|a s IH]; intros [|b t]; simpl; try done.
  intros [Hc Hs]%andb_true_iff. rewrite (IH t Hs). f_equal.
  apply orb_true_iff in Hc as [Hc|Hc]; apply Ascii.eqb_eq in Hc; subst; [done|].
  by rewrite upper_swapcase.
Qed.

Lemma parse_rule_typed_type line :
  line_kind line = Typed → type (parse_rule line) = Text.upper (type_token line).
Proof.
  unfold line_kind, parse_rule, type_token.
  destruct (negb (truthy (Text.strip line))); [discriminate|].
  destruct (Text.startswith "#" (Text.strip line)); [discriminate|].
  by destruct (Text.contains "," (Text.strip line)).
Qed.

Lemma parse_rule_malformed line :
  line_kind line = Malformed →
  parse_rule line = mkRule line "UNKNOWN" (Text.strip line) false false.
Proof.
  unfold line_kind, parse_rule.
  destruct (negb (truthy (Text.strip line))); [discriminate|].
  destruct (Text.startswith "#" (Text.strip line)); [discriminate|].
  by destruct (Text.contains "," (Text.strip line)).
Qed.

Lemma bump_comm k k' (d : gmap string nat) :
  bump k (bump k' d) = bump k' (bump k d).
Proof.
  unfold bump. destruct (decide (k = k')) as [->|Hne]; [done|].
  rewrite !lookup_insert_ne by done. by apply insert_insert_ne.
Qed.

Lemma dedup_step_seen st r :
  is_boundary r = false → dedup_key r ∈ seen_in_group (dedup_step st r).
Proof.
  unfold dedup_step, is_boundary. intros ->.
  destruct (bool_decide_reflect (dedup_key r ∈ seen_in_group st)); simpl;
    set_solver.
Qed.

Lemma dedup_fold_seen mid : ∀ st k,
  Forall (λ r, is_boundary r = false) mid →
  k ∈ seen_in_group st →
  k ∈ seen_in_group (fold_left dedup_step mid st).
Proof.
  induction mid as [|r mid IH]; intros st k Hmid Hk; simpl; [done|].
  inversion Hmid as [|? ? Hr Hmid']; subst. apply IH; [done|].
  unfold dedup_step. unfold is_boundary in Hr. rewrite Hr.
  destruct (bool_decide (dedup_key r ∈ seen_in_group st)); simpl; set_solver.
Qed.

Lemma dedup_fold_bump suf : ∀ st k,
  fold_left dedup_step suf
    (mkDedup (bump k (duplicate_counts st)) (result st) (seen_in_group st))
  = let st' := fold_left dedup_step suf st in
    mkDedup (bump k (duplicate_counts st')) (result st') (seen_in_group st').
Proof.
  induction suf as [|r suf IH]; intros st k; simpl; [done|].
  rewrite <- IH. f_equal. unfold dedup_step. simpl.
  destruct (is_comment r || is_empty r); [done|].
  destruct (bool_decide (dedup_key r ∈ seen_in_group st)); simpl; [|done].
  by rewrite bump_comm.
Qed.

(** A rule with the key of an earlier rule of its group is dropped: the
    kept rules are those of the sequence without it, and the removal count
    of its key is one more. *)
Lemma dedup_drops_repeat pre r1 mid r2 suf :
  is_boundary r1 = false → is_boundary r2 = false →
  dedup_key r1 = dedup_key r2 →
  Forall (λ r, is_boundary r = false) mid →
  deduplicate_rules (pre ++ r1 :: mid ++ r2 :: suf)
  = (fst (deduplicate_rules (pre ++ r1 :: mid ++ suf)),
     bump (dedup_key r2) (snd (deduplicate_rules (pre ++ r1 :: mid ++ suf)))).
Proof.
  intros Hb1 Hb2 Hkey Hmid. unfold deduplicate_rules, dedup_loop. simpl.
  rewrite !fold_left_app. simpl. rewrite !fold_left_app. simpl.
  set (st := fold_left dedup_step mid
               (dedup_step (fold_left dedup_step pre (mkDedup ∅ [] ∅)) r1)).
  assert (Hin : dedup_key r2 ∈ seen_in_group st).
  { apply dedup_fold_seen; [done|]. rewrite <- Hkey. by apply dedup_step_seen. }
  assert (Hstep : dedup_step st r2
    = mkDedup (bump (dedup_key r2) (duplicate_counts st)) (result st)
              (seen_in_group st)).
  { unfold dedup_step. unfold is_boundary in Hb2. rewrite Hb2.
    by rewrite bool_decide_eq_true_2. }
  by rewrite Hstep, dedup_fold_bump.
Qed.

Lemma dedup_fold_seen_bound mid : ∀ st k,
  k ∈ seen_in_group (fold_left dedup_step mid st) →
  k ∈ seen_in_group st ∨
  ∃ r, r ∈ mid ∧ is_boundary r = false ∧ dedup_key r = k.
Proof.
  induction mid as [|r mid IH]; intros st k Hk; simpl in Hk; [by left|].
  destruct (IH _ _ Hk) as [Hin|(r' & Hr' & Hb' & Hk')].
  2: { right. exists r'. split; [by apply list_elem_of_further|done]. }
  unfold dedup_step in Hin. fold (is_boundary r) in Hin.
  destruct (is_boundary r) eqn:Hb; simpl in Hin.
  { by apply elem_of_empty in Hin. }
  destruct (bool_decide (dedup_key r ∈ seen_in_group st)); simpl in Hin;
    [by left|].
  apply elem_of_union in Hin as [Hin|Hin]; [|by left].
  apply elem_of_singleton in Hin. right. exists r.
  split; [apply list_elem_of_here|done].
Qed.

Lemma dedup_step_fresh st r :
  is_boundary r = false → dedup_key r ∉ seen_in_group st →
  dedup_step st r
  = mkDedup (duplicate_counts st) (result st ++ [r])
            ({[dedup_key r]} ∪ seen_in_group st).
Proof.
  intros Hb Hk. unfold dedup_step. fold (is_boundary r).
  by rewrite Hb, bool_decide_eq_false_2.
Qed.

(** Two rules of different keys are both kept, at their places, when no
    earlier rule of the group has the key of either and no rule between
    them has the key of the second. *)
Lemma dedup_keeps_both pre r1 mid r2 suf :
  is_boundary r1 = false → is_boundary r2 = false →
  dedup_key r1 ≠ dedup_key r2 →
  dedup_key r1 ∉ seen_in_group (dedup_loop pre) →
  dedup_key r2 ∉ seen_in_group (dedup_loop pre) →
  (∀ r, r ∈ mid → is_boundary r = false → dedup_key r ≠ dedup_key r2) →
  ∃ kept_mid kept_suf,
    sublist kept_mid mid ∧ sublist kept_suf suf ∧
    fst (deduplicate_rules (pre ++ r1 :: mid ++ r2 :: suf))
    = fst (deduplicate_rules pre) ++ r1 :: kept_mid ++ r2 :: kept_suf.
Proof.
  intros Hb1 Hb2 Hne H1 H2 Hmid. unfold deduplicate_rules. cbn [fst].
  unfold dedup_loop at 1. rewrite fold_left_app. fold (dedup_loop pre).
  set (st0 := dedup_loop pre) in *. cbn [fold_left].
  rewrite fold_left_app. cbn [fold_left].
  rewrite (dedup_step_fresh st0 r1 Hb1 H1).
  set (st1 := mkDedup (duplicate_counts st0) (result st0 ++ [r1])
                      ({[dedup_key r1]} ∪ seen_in_group st0)).
  destruct (dedup_fold_walk mid st1) as [Hres2 _].
  set (st2 := fold_left dedup_step mid st1) in *.
  assert (H2' : dedup_key r2 ∉ seen_in_group st2).
  { intros Hin. apply dedup_fold_seen_bound in Hin
      as [Hin|(r & Hr & Hbr & Hkr)].
    - apply elem_of_union in Hin as [Hin|Hin]; [|done].
      apply elem_of_singleton in Hin. by apply Hne.
    - by apply (Hmid r). }
  rewrite (dedup_step_fresh st2 r2 Hb2 H2').
  set (st3 := mkDedup (duplicate_counts st2) (result st2 ++ [r2])
                      ({[dedup_key r2]} ∪ seen_in_group st2)).
  destruct (dedup_fold_walk suf st3) as [Hres3 _].
  exists (fst (dedup_walk (seen_in_group st1) (duplicate_counts st1) mid)),
         (fst (dedup_walk (seen_in_group st3) (duplicate_counts st3) suf)).
  split; [apply dedup_walk_sublist|]. split; [apply dedup_walk_sublist|].
  rewrite Hres3. cbn [result st3]. rewrite Hres2. cbn [result st1].
  by rewrite <- !app_assoc.
Qed.

(** C9.  Keys ignore the letter case of the type and keep that of the
    value.  Of two typed lines of one group whose type tokens differ only in
    letter case and whose trimmed values are equal, the second is removed.
    Two typed lines of equal type whose values differ, be it only in letter
    case, have different keys; in any sequence they are both kept, at their
    places, when no earlier rule of the group has the key of either and no
    rule between them has the key of the second, and so whenever they make
    up a sequence of their own. *)
Theorem dedup_key_case :
  (∀ l1 l2 pre mid suf,
     line_kind l1 = Typed → line_kind l2 = Typed →
     Text.same_modulo_case (type_token l1) (type_token l2) = true →
     value (parse_rule l1) = value (parse_rule l2) →
     Forall (λ r, is_boundary r = false) mid →
     let rest := pre ++ parse_rule l1 :: mid ++ suf in
     deduplicate_rules (pre ++ parse_rule l1 :: mid ++ parse_rule l2 :: suf)
     = (fst (deduplicate_rules rest),
        bump (dedup_key (parse_rule l2)) (snd (deduplicate_rules rest)))) ∧
  (∀ l1 l2 pre mid suf,
     line_kind l1 = Typed → line_kind l2 = Typed →
     type (parse_rule l1) = type (parse_rule l2) →
     value (parse_rule l1) ≠ value (parse_rule l2) →
     dedup_key (parse_rule l1) ≠ dedup_key (parse_rule l2) ∧
     (dedup_key (parse_rule l1) ∉ seen_in_group (dedup_loop pre) →
      dedup_key (parse_rule l2) ∉ seen_in_group (dedup_loop pre) →
      (∀ r, r ∈ mid → is_boundary r = false →
            dedup_key r ≠ dedup_key (parse_rule l2)) →
      ∃ kept_mid kept_suf,
        sublist kept_mid mid ∧ sublist kept_suf suf ∧
        fst (deduplicate_rules
               (pre ++ parse_rule l1 :: mid ++ parse_rule l2 :: suf))
        = fst (deduplicate_rules pre)
            ++ parse_rule l1 :: kept_mid ++ parse_rule l2 :: kept_suf)) ∧
  (∀ l1 l2,
     line_kind l1 = Typed → line_kind l2 = Typed →
     type (parse_rule l1) = type (parse_rule l2) →
     value (parse_rule l1) ≠ value (parse_rule l2) →
     deduplicate_rules [parse_rule l1; parse_rule l2]
     = ([parse_rule l1; parse_rule l2], ∅)) ∧
  deduplicate_rules [parse_rule "domain,x.com"; parse_rule "DOMAIN, x.com"]
    = ([parse_rule "domain,x.com"], {["DOMAIN,x.com" := 1]}) ∧
  Text.same_modulo_case "Example.com" "example.com" = true ∧
  deduplicate_rules
    [parse_rule "DOMAIN,Example.com"; parse_rule "DOMAIN,example.com"]
  = ([parse_rule "DOMAIN,Example.com"; parse_rule "DOMAIN,example.com"], ∅) ∧
  deduplicate_rules
    [parse_rule "# g"; parse_rule "DOMAIN,Example.com"; parse_rule "GEOIP,CN";
     parse_rule "DOMAIN,example.com"]
  = ([parse_rule "# g"; parse_rule "DOMAIN,Example.com"; parse_rule "GEOIP,CN";
      parse_rule "DOMAIN,example.com"], ∅).
Proof.
  assert (Hkey : ∀ l1 l2,
    type (parse_rule l1) = type (parse_rule l2) →
    value (parse_rule l1) ≠ value (parse_rule l2) →
    dedup_key (parse_rule l1) ≠ dedup_key (parse_rule l2)).
  { intros l1 l2 Hty Hval. unfold dedup_key. rewrite Hty. intros Heq.
    apply String.app_inj in Heq. apply String.app_inj in Heq. done. }
  split; [|split; [|split; [|repeat split; vm_compute; reflexivity]]].
  - intros l1 l2 pre mid suf H1 H2 Hty Hval Hmid rest. subst rest.
    destruct (parse_rule_typed l1 H1) as (Hc1 & He1 & _).
    destruct (parse_rule_typed l2 H2) as (Hc2 & He2 & _).
    apply dedup_drops_repeat; unfold is_boundary; rewrite ?Hc1, ?He1, ?Hc2, ?He2;
      try done.
    unfold dedup_key. rewrite Hval, !parse_rule_typed_type by done.
    by rewrite (upper_same_modulo_case _ _ Hty).
  - intros l1 l2 pre mid suf H1 H2 Hty Hval.
    destruct (parse_rule_typed l1 H1) as (Hc1 & He1 & _).
    destruct (parse_rule_typed l2 H2) as (Hc2 & He2 & _).
    split; [by apply Hkey|]. intros Hs1 Hs2 Hmid.
    apply dedup_keeps_both; try done.
    + unfold is_boundary. by rewrite Hc1, He1.
    + unfold is_boundary. by rewrite Hc2, He2.
    + by apply Hkey.
  - intros l1 l2 H1 H2 Hty Hval.
    destruct (parse_rule_typed l1 H1) as (Hc1 & He1 & _).
    destruct (parse_rule_typed l2 H2) as (Hc2 & He2 & _).
    pose proof (Hkey l1 l2 Hty Hval) as Hk.
    apply deduplicate_rules_unique.
    unfold group_unique, groups, is_boundary. rewrite Hc1, He1, Hc2, He2. simpl.
    constructor; [|constructor]. apply NoDup_cons. split; [|apply NoDup_singleton].
    by intros ?%list_elem_of_singleton.
Qed.

Lemma dedup_key_case_witness :
  deduplicate_rules
    ([parse_rule "# group"] ++ parse_rule "domain-suffix,x.com"
       :: [parse_rule "GEOIP,CN"] ++ parse_rule "Domain-Suffix , x.com  " :: [])
  = (fst (deduplicate_rules
            ([parse_rule "# group"] ++ parse_rule "domain-suffix,x.com"
               :: [parse_rule "GEOIP,CN"] ++ [])),
     bump (dedup_key (parse_rule "Domain-Suffix , x.com  "))
       (snd (deduplicate_rules
               ([parse_rule "# group"] ++ parse_rule "domain-suffix,x.com"
                  :: [parse_rule "GEOIP,CN"] ++ [])))) ∧
  (∃ kept_mid kept_suf,
     sublist kept_mid [parse_rule "GEOIP,CN"] ∧ sublist kept_suf [] ∧
     fst (deduplicate_rules
            ([parse_rule "# g"] ++ parse_rule "DOMAIN,Example.com"
               :: [parse_rule "GEOIP,CN"] ++ parse_rule "DOMAIN,example.com" :: []))
     = fst (deduplicate_rules [parse_rule "# g"])
         ++ parse_rule "DOMAIN,Example.com"
         :: kept_mid ++ parse_rule "DOMAIN,example.com" :: kept_suf).
Proof.
  split.
  - apply (proj1 dedup_key_case "domain-suffix,x.com" "Domain-Suffix , x.com  "
             [parse_rule "# group"] [parse_rule "GEOIP,CN"] []);
      try reflexivity.
    repeat constructor.
  - apply (proj1 (proj2 dedup_key_case)
             "DOMAIN,Example.com" "DOMAIN,example.com"
             [parse_rule "# g"] [parse_rule "GEOIP,CN"] []);
      try reflexivity.
    + vm_compute. discriminate.
    + apply (bool_decide_unpack _). vm_compute. exact I.
    + apply (bool_decide_unpack _). vm_compute. exact I.
    + intros r Hr _. apply list_elem_of_singleton in Hr. subst r.
      vm_compute. discriminate.
Defined.

(** C10.  A malformed line has the key [UNKNOWN,] followed by its stripped
    content and takes part in deduplication: a second malformed line of the
    same content in a group is dropped; and a malformed line [v] shares its
    key with the typed line [UNKNOWN,v], so that of the two the later one is
    dropped. *)
Theorem malformed_lines_deduplicated :
  (∀ l, line_kind l = Malformed →
        dedup_key (parse_rule l) = "UNKNOWN," +:+ Text.strip l) ∧
  (∀ l1 l2 pre mid suf,
     line_kind l1 = Malformed → line_kind l2 = Malformed →
     Text.strip l1 = Text.strip l2 →
     Forall (λ r, is_boundary r = false) mid →
     let rest := pre ++ parse_rule l1 :: mid ++ suf in
     deduplicate_rules (pre ++ parse_rule l1 :: mid ++ parse_rule l2 :: suf)
     = (fst (deduplicate_rules rest),
        bump ("UNKNOWN," +:+ Text.strip l2) (snd (deduplicate_rules rest)))) ∧
  (∃ v,
     line_kind v = Malformed ∧ line_kind ("UNKNOWN," +:+ v) = Typed ∧
     dedup_key (parse_rule v) = dedup_key (parse_rule ("UNKNOWN," +:+ v)) ∧
     deduplicate_rules [parse_rule v; parse_rule ("UNKNOWN," +:+ v)]
       = ([parse_rule v], {["UNKNOWN," +:+ v := 1]}) ∧
     deduplicate_rules [parse_rule ("UNKNOWN," +:+ v); parse_rule v]
       = ([parse_rule ("UNKNOWN," +:+ v)], {["UNKNOWN," +:+ v := 1]})).
Proof.
  assert (Hkey : ∀ l, line_kind l = Malformed →
    dedup_key (parse_rule l) = "UNKNOWN," +:+ Text.strip l).
  { intros l Hl. by rewrite (parse_rule_malformed l Hl). }
  split; [exact Hkey|]. split.
  - intros l1 l2 pre mid suf H1 H2 Hs Hmid rest. subst rest.
    rewrite <- (Hkey l2 H2). apply dedup_drops_repeat; try done.
    + by rewrite (parse_rule_malformed l1 H1).
    + by rewrite (parse_rule_malformed l2 H2).
    + by rewrite !Hkey, Hs.
  - exists "justsometext". repeat split; vm_compute; reflexivity.
Qed.

Lemma malformed_lines_deduplicated_witness :
  deduplicate_rules
    ([] ++ parse_rule ("justsometext" +:+ Text.nl)
       :: [parse_rule "DOMAIN,x.com"] ++ parse_rule "  justsometext" :: [])
  = ([parse_rule ("justsometext" +:+ Text.nl); parse_rule "DOMAIN,x.com"],
     {["UNKNOWN,justsometext" := 1]}).
Proof.
  rewrite (proj1 (proj2 malformed_lines_deduplicated)
             ("justsometext" +:+ Text.nl) "  justsometext"
             [] [parse_rule "DOMAIN,x.com"] []
             eq_refl eq_refl eq_refl ltac:(repeat constructor)).
  vm_compute. reflexivity.
Defined.

(** * Further properties of the code *)

(** ** What the deduplicator keeps and counts *)

Lemma sum_values_bump k (d : gmap string nat) :
  sum_values (bump k d) = S (sum_values d).
Proof.
  unfold sum_values, bump.
  assert (Hcomm : ∀ (j1 j2 : string) (z1 z2 y : nat),
            z1 + (z2 + y) = z2 + (z1 + y)) by (intros; lia).
  destruct (d !! k) as [n|] eqn:Hk; simpl.
  - rewrite <- (insert_delete_eq d k (S n)).
    rewrite map_fold_insert_L; [|by intros; apply Hcomm|apply lookup_delete_eq].
    rewrite (map_fold_delete_L _ _ k n d); [lia|by intros; apply Hcomm|done].
  - rewrite map_fold_insert_L; [lia|by intros; apply Hcomm|done].
Qed.

Lemma dedup_walk_length rs : ∀ seen counts,
  length rs + sum_values counts
  = length (fst (dedup_walk seen counts rs))
    + sum_values (snd (dedup_walk seen counts rs)).
Proof.
  induction rs as [|r rs IH]; intros seen counts; simpl; [done|].
  destruct (is_boundary r); simpl.
  { specialize (IH ∅ counts). lia. }
  destruct (bool_decide (dedup_key r ∈ seen)); simpl.
  - specialize (IH seen (bump (dedup_key r) counts)).
    rewrite sum_values_bump in IH. lia.
  - specialize (IH ({[dedup_key r]} ∪ seen) counts). lia.
Qed.

Lemma dedup_length rs :
  length rs
  = length (fst (deduplicate_rules rs)) + sum_values (snd (deduplicate_rules rs)).
Proof.
  rewrite deduplicate_rules_walk.
  pose proof (dedup_walk_length rs ∅ ∅) as H.
  unfold sum_values at 1 in H. rewrite map_fold_empty in H. lia.
Qed.

(** X1.  Every input rule is either kept or counted as removed: the input
    has as many rules as the output plus the sum of the removal counts. *)
Theorem deduplicate_rules_length rs :
  length rs
  = length (fst (deduplicate_rules rs)) + sum_values (snd (deduplicate_rules rs)).
Proof. exact (dedup_length rs). Qed.

Lemma dedup_walk_boundaries rs : ∀ seen counts,
  List.filter is_boundary (fst (dedup_walk seen counts rs))
  = List.filter is_boundary rs.
Proof.
  induction rs as [|r rs IH]; intros seen counts; simpl; [done|].
  destruct (is_boundary r) eqn:Hb; simpl.
  { by rewrite Hb, IH. }
  destruct (bool_decide (dedup_key r ∈ seen)); simpl; [apply IH|].
  by rewrite Hb, IH.
Qed.

(** X2.  Comments and empty lines are never dropped: the comment and empty
    rules of the output are those of the input, in the same order. *)
Theorem deduplicate_rules_boundaries rs :
  List.filter is_boundary (fst (deduplicate_rules rs))
  = List.filter is_boundary rs.
Proof. rewrite deduplicate_rules_walk. apply dedup_walk_boundaries. Qed.

Lemma dedup_walk_group_unique rs : ∀ seen counts,
  ∃ g gs,
    groups (fst (dedup_walk seen counts rs)) = g :: gs ∧
    NoDup (dedup_key <$> g) ∧
    (∀ k, k ∈ dedup_key <$> g → k ∉ seen) ∧
    Forall (λ g, NoDup (dedup_key <$> g)) gs.
Proof.
  induction rs as [|r rs IH]; intros seen counts; simpl.
  { exists [], []. split; [done|]. split; [constructor|]. split; [|constructor].
    by intros k ?%elem_of_nil. }
  destruct (is_boundary r) eqn:Hb; simpl.
  - rewrite Hb. destruct (IH ∅ counts) as (g & gs & -> & Hg & _ & Hgs).
    exists [], (g :: gs). split; [done|]. split; [constructor|].
    split; [by intros k ?%elem_of_nil|by constructor].
  - destruct (bool_decide_reflect (dedup_key r ∈ seen)) as [Hin|Hnin]; simpl.
    { apply IH. }
    rewrite Hb.
    destruct (IH ({[dedup_key r]} ∪ seen) counts) as (g & gs & -> & Hg & Hs & Hgs).
    exists (r :: g), gs. split; [done|]. split; [|split; [|done]].
    + rewrite fmap_cons. apply NoDup_cons. split; [|done].
      intros Hk. apply (Hs _ Hk), elem_of_union. left. by apply elem_of_singleton.
    + intros k Hk. rewrite fmap_cons in Hk.
      apply elem_of_cons in Hk as [->|Hk]; [done|].
      intros Hin. apply (Hs _ Hk), elem_of_union. by right.
Qed.

Lemma dedup_group_unique rs : group_unique (fst (deduplicate_rules rs)).
Proof.
  rewrite deduplicate_rules_walk. unfold group_unique.
  destruct (dedup_walk_group_unique rs ∅ ∅) as (g & gs & -> & Hg & _ & Hgs).
  by constructor.
Qed.

(** X3.  The output of the deduplicator has no key twice within a group. *)
Theorem deduplicate_rules_group_unique rs :
  group_unique (fst (deduplicate_rules rs)).
Proof. exact (dedup_group_unique rs). Qed.

Lemma sublist_same_length {A} (l k : list A) :
  sublist l k → length l = length k → l = k.
Proof.
  induction 1 as [|x l k Hs IH|x l k Hs IH]; simpl; intros Hlen; [done| |].
  - f_equal. apply IH. lia.
  - apply sublist_length in Hs. lia.
Qed.

(** X4.  The deduplicator changes nothing exactly on the sequences with no
    key twice within a group, and its removal map is empty exactly when it
    changes nothing. *)
Theorem deduplicate_rules_unchanged_iff rs :
  (group_unique rs ↔ fst (deduplicate_rules rs) = rs) ∧
  (fst (deduplicate_rules rs) = rs ↔ snd (deduplicate_rules rs) = ∅).
Proof.
  assert (H1 : group_unique rs ↔ fst (deduplicate_rules rs) = rs).
  { split.
    - intros H. by rewrite (deduplicate_rules_unique _ H).
    - intros H. rewrite <- H. apply dedup_group_unique. }
  split; [exact H1|]. split.
  - intros H. apply H1 in H. by rewrite (deduplicate_rules_unique _ H).
  - intros H. apply sublist_same_length.
    + rewrite deduplicate_rules_walk. apply dedup_walk_sublist.
    + pose proof (dedup_length rs) as Hlen. rewrite H in Hlen.
      unfold sum_values in Hlen. rewrite map_fold_empty in Hlen. lia.
Qed.

Lemma deduplicate_rules_unchanged_iff_witness :
  fst (deduplicate_rules [parse_rule "DOMAIN,a.com"; parse_rule "DOMAIN,b.com"])
  = [parse_rule "DOMAIN,a.com"; parse_rule "DOMAIN,b.com"].
Proof.
  apply (proj1 (proj1 (deduplicate_rules_unchanged_iff
                         [parse_rule "DOMAIN,a.com"; parse_rule "DOMAIN,b.com"]))).
  apply (bool_decide_unpack _). vm_compute. exact I.
Defined.

(** ** What the parser guarantees *)

Lemma contains_lstrip x s :
  Text.contains x s = false → Text.contains x (Text.lstrip s) = false.
Proof.
  induction s as [|c s IH]; simpl; [done|].
  intros [Hc Hs]%orb_false_iff. destruct (Text.isspace c); [by apply IH|].
  simpl. by rewrite Hc, Hs.
Qed.

Lemma contains_rstrip x s :
  Text.contains x s = false → Text.contains x (Text.rstrip s) = false.
Proof.
  induction s as [|c s IH]; simpl; [done|].
  intros [Hc Hs]%orb_false_iff. specialize (IH Hs).
  destruct (Text.rstrip s) as [|a r].
  - destruct (Text.isspace c); simpl; [done|]. by rewrite Hc.
  - change (Text.contains x (String c (String a r)))
      with (Ascii.eqb c x || Text.contains x (String a r)).
    by rewrite Hc, IH.
Qed.

Lemma contains_strip x s :
  Text.contains x s = false → Text.contains x (Text.strip s) = false.
Proof. intros H. by apply contains_rstrip, contains_lstrip. Qed.

Lemma cut_prefix x s : ∀ a b,
  Text.cut x s = Some (a, b) → Text.contains x a = false.
Proof.
  induction s as [|c s IH]; simpl; [done|]. intros a b.
  destruct (Ascii.eqb c x) eqn:Hc; [by intros [= <- _]|].
  destruct (Text.cut x s) as [[a' b']|]; [|done].
  intros [= <- _]. simpl. rewrite Hc. by apply (IH a' b').
Qed.

Lemma cut_none x s : Text.cut x s = None → Text.contains x s = false.
Proof.
  induction s as [|c s IH]; simpl; [done|].
  destruct (Ascii.eqb c x); [done|].
  destruct (Text.cut x s) as [[a b]|]; [done|]. intros _. by apply IH.
Qed.

Lemma split1_head x s :
  Text.contains x (nth 0 (Text.split1 x s) "") = false.
Proof.
  unfold Text.split1. destruct (Text.cut x s) as [[a b]|] eqn:Hcut; simpl.
  - by apply (cut_prefix x s a b).
  - by apply cut_none.
Qed.

Lemma upper_char_comma c :
  Ascii.eqb (Text.upper_char c) "," = Ascii.eqb c ",".
Proof. destruct c as [[] [] [] [] [] [] [] []]; reflexivity. Qed.

Lemma contains_upper_comma s :
  Text.contains "," (Text.upper s) = Text.contains "," s.
Proof.
  induction s as [|c s IH]; simpl; [done|]. by rewrite upper_char_comma, IH.
Qed.

Lemma parse_rule_type_comma_free line :
  Text.contains "," (type (parse_rule line)) = false.
Proof.
  unfold parse_rule.
  destruct (negb (truthy (Text.strip line))); [done|].
  destruct (Text.startswith "#" (Text.strip line)); [done|].
  destruct (Text.contains "," (Text.strip line)); [|done].
  simpl. rewrite contains_upper_comma. apply contains_strip, split1_head.
Qed.

Lemma append_empty_l t : "" +:+ t = t.
Proof. reflexivity. Qed.

Lemma key_split t1 : ∀ t2 v1 v2,
  Text.contains "," t1 = false → Text.contains "," t2 = false →
  t1 +:+ "," +:+ v1 = t2 +:+ "," +:+ v2 → t1 = t2 ∧ v1 = v2.
Proof.
  induction t1 as [|c t1 IH]; intros [|c' t2] v1 v2 H1 H2; simpl in H1, H2.
  - rewrite !append_empty_l, !append_cons, !append_empty_l.
    intros Heq. injection Heq as Heq. by subst.
  - apply orb_false_iff in H2 as [H2 _].
    rewrite !append_empty_l, !append_cons. intros Heq. injection Heq as Hc _.
    subst c'. done.
  - apply orb_false_iff in H1 as [H1 _].
    rewrite !append_empty_l, !append_cons. intros Heq. injection Heq as Hc _.
    subst c. done.
  - apply orb_false_iff in H1 as [_ H1]. apply orb_false_iff in H2 as [_ H2].
    rewrite !append_cons. intros Heq. injection Heq as Hc Heq. subst c'.
    destruct (IH t2 v1 v2 H1 H2 Heq) as [Ht Hv]. by subst.
Qed.

Lemma parsed_key_inj l1 l2 :
  dedup_key (parse_rule l1) = dedup_key (parse_rule l2) →
  type (parse_rule l1) = type (parse_rule l2) ∧
  value (parse_rule l1) = value (parse_rule l2).
Proof.
  unfold dedup_key. apply key_split; apply parse_rule_type_comma_free.
Qed.

(** X5.  The key [type,value] of a parsed line determines both its type and
    its value: no two lines of different type or different value are ever
    taken for duplicates of each other. *)
Theorem dedup_key_injective l1 l2 :
  dedup_key (parse_rule l1) = dedup_key (parse_rule l2) ↔
  type (parse_rule l1) = type (parse_rule l2) ∧
  value (parse_rule l1) = value (parse_rule l2).
Proof.
  split; [apply parsed_key_inj|]. unfold dedup_key. by intros [-> ->].
Qed.

Lemma dedup_key_injective_witness :
  type (parse_rule "domain, x.com") = type (parse_rule "DOMAIN,x.com") ∧
  value (parse_rule "domain, x.com") = value (parse_rule "DOMAIN,x.com").
Proof.
  apply (proj1 (dedup_key_injective "domain, x.com" "DOMAIN,x.com")).
  reflexivity.
Defined.

Lemma parse_rule_strip_fields l1 l2 :
  Text.strip l1 = Text.strip l2 →
  type (parse_rule l1) = type (parse_rule l2) ∧
  value (parse_rule l1) = value (parse_rule l2) ∧
  is_comment (parse_rule l1) = is_comment (parse_rule l2) ∧
  is_empty (parse_rule l1) = is_empty (parse_rule l2).
Proof.
  intros H. unfold parse_rule. rewrite H.
  destruct (negb (truthy (Text.strip l2))); [done|].
  destruct (Text.startswith "#" (Text.strip l2)); [done|].
  by destruct (Text.contains "," (Text.strip l2)).
Qed.

(** X6.  Only the stripped text of a line matters: two lines that differ in
    surrounding whitespace (indentation, trailing blanks, a missing final
    newline) parse to the same type, value and flags, have the same key, and
    get the same validation verdict with the same message. *)
Theorem parse_rule_whitespace_invariant l1 l2 :
  Text.strip l1 = Text.strip l2 →
  parse_rule l2
  = mkRule l2 (type (parse_rule l1)) (value (parse_rule l1))
           (is_comment (parse_rule l1)) (is_empty (parse_rule l1)) ∧
  dedup_key (parse_rule l1) = dedup_key (parse_rule l2) ∧
  validate_rule (parse_rule l1) VALID_RULE_TYPES
  = validate_rule (parse_rule l2) VALID_RULE_TYPES.
Proof.
  intros H. destruct (parse_rule_strip_fields l1 l2 H) as (Ht & Hv & Hc & He).
  pose proof (raw_parse_rule l1) as Hr1. pose proof (raw_parse_rule l2) as Hr2.
  split; [|split].
  - rewrite Ht, Hv, Hc, He. rewrite <- Hr2 at 2. by destruct (parse_rule l2).
  - unfold dedup_key. by rewrite Ht, Hv.
  - unfold validate_rule. by rewrite Ht, Hv, Hc, He, Hr1, Hr2, H.
Qed.

Lemma parse_rule_whitespace_invariant_witness :
  dedup_key (parse_rule ("  DOMAIN,x.com  " +:+ Text.nl))
  = dedup_key (parse_rule "DOMAIN,x.com").
Proof.
  apply (parse_rule_whitespace_invariant
           ("  DOMAIN,x.com  " +:+ Text.nl) "DOMAIN,x.com").
  reflexivity.
Defined.

(** ** Deduplication and validation together *)

Lemma dedup_walk_retains rs : ∀ seen counts r,
  r ∈ rs →
  let kept := fst (dedup_walk seen counts rs) in
  r ∈ kept ∨
  (is_boundary r = false ∧
   (dedup_key r ∈ seen ∨
    ∃ r', r' ∈ kept ∧ is_boundary r' = false ∧ dedup_key r' = dedup_key r)).
Proof.
  induction rs as [|h rs IH]; intros seen counts r Hr; simpl.
  { by apply elem_of_nil in Hr. }
  apply elem_of_cons in Hr as [->|Hr].
  - destruct (is_boundary h) eqn:Hb; simpl; [left; apply list_elem_of_here|].
    destruct (bool_decide_reflect (dedup_key h ∈ seen)); simpl.
    + right. split; [done|]. by left.
    + left. apply list_elem_of_here.
  - destruct (is_boundary h) eqn:Hb; simpl.
    { destruct (IH ∅ counts r Hr) as [Hin|(Hbr & [Hin|(r' & Hin & Hb' & Hk)])].
      - left. by apply list_elem_of_further.
      - by apply elem_of_empty in Hin.
      - right. split; [done|]. right. exists r'.
        split; [by apply list_elem_of_further|done]. }
    destruct (bool_decide_reflect (dedup_key h ∈ seen)) as [Hh|Hh]; simpl.
    { apply IH, Hr. }
    destruct (IH ({[dedup_key h]} ∪ seen) counts r Hr)
      as [Hin|(Hbr & [Hin|(r' & Hin & Hb' & Hk)])].
    + left. by apply list_elem_of_further.
    + right. split; [done|].
      apply elem_of_union in Hin as [Hin|Hin]; [|by left].
      apply elem_of_singleton in Hin. right. exists h.
      split; [apply list_elem_of_here|done].
    + right. split; [done|]. right. exists r'.
      split; [by apply list_elem_of_further|done].
Qed.

Lemma dedup_retains rs r :
  r ∈ rs →
  ∃ r', r' ∈ fst (deduplicate_rules rs) ∧
        (r' = r ∨ (is_boundary r = false ∧ is_boundary r' = false ∧
                   dedup_key r' = dedup_key r)).
Proof.
  intros Hr. rewrite deduplicate_rules_walk.
  destruct (dedup_walk_retains rs ∅ ∅ r Hr)
    as [Hin|(Hb & [Hin|(r' & Hin & Hb' & Hk)])].
  - exists r. split; [done|by left].
  - by apply elem_of_empty in Hin.
  - exists r'. split; [done|]. right. done.
Qed.

(** X7.  Nothing disappears without a representative: every input rule is
    kept, or is a rule that is neither comment nor empty and a kept rule of
    that sort has its key. *)
Theorem deduplicate_rules_retains rs r :
  r ∈ rs →
  ∃ r', r' ∈ fst (deduplicate_rules rs) ∧
        (r' = r ∨ (is_boundary r = false ∧ is_boundary r' = false ∧
                   dedup_key r' = dedup_key r)).
Proof. exact (dedup_retains rs r). Qed.

Lemma deduplicate_rules_retains_witness :
  ∃ r', r' ∈ fst (deduplicate_rules
                    [parse_rule "DOMAIN,x.com"; parse_rule " domain,x.com"]) ∧
        (r' = parse_rule " domain,x.com" ∨
         (is_boundary (parse_rule " domain,x.com") = false ∧
          is_boundary r' = false ∧
          dedup_key r' = dedup_key (parse_rule " domain,x.com"))).
Proof.
  apply (deduplicate_rules_retains
           [parse_rule "DOMAIN,x.com"; parse_rule " domain,x.com"]).
  apply list_elem_of_further, list_elem_of_here.
Defined.

Lemma validate_all_rules_nil rs :
  validate_all_rules rs = [] ↔
  Forall (λ r, fst (validate_rule r VALID_RULE_TYPES) = true) rs.
Proof.
  induction rs as [|r rs IH].
  { split; [constructor|done]. }
  rewrite validate_all_rules_cons, validate_all_rules_one, Forall_cons.
  destruct (fst (validate_rule r VALID_RULE_TYPES)); simpl.
  - rewrite IH. split; [intros H; split; [reflexivity|exact H]|].
    intros [_ H]. exact H.
  - split; [intros H; discriminate H|]. intros [H _]. discriminate H.
Qed.

Lemma validate_all_rules_sublist (l k : list Rule) :
  sublist l k → sublist (validate_all_rules l) (validate_all_rules k).
Proof.
  induction 1 as [|x l k Hs IH|x l k Hs IH]; [done| |].
  - rewrite (validate_all_rules_cons x l), (validate_all_rules_cons x k).
    by apply sublist_app.
  - rewrite (validate_all_rules_cons x k). by apply sublist_inserts_l.
Qed.

Lemma verdict_same r r' :
  is_boundary r = false → is_boundary r' = false →
  type r = type r' → value r = value r' →
  fst (validate_rule r VALID_RULE_TYPES)
  = fst (validate_rule r' VALID_RULE_TYPES).
Proof.
  unfold is_boundary, validate_rule. intros -> -> -> ->.
  destruct (String.eqb _ _); [done|].
  destruct (negb (bool_decide _)); [done|]. by destruct (negb (truthy _)).
Qed.

Lemma dedup_verdict (ls : list string) :
  validate_all_rules (fst (deduplicate_rules (parse_rule <$> ls))) = [] →
  validate_all_rules (parse_rule <$> ls) = [].
Proof.
  rewrite !validate_all_rules_nil, !Forall_forall. intros H r Hr.
  destruct (dedup_retains _ r Hr) as (r' & Hin & [->|(Hb & Hb' & Hk)]);
    [by apply H|].
  rewrite <- (H r' Hin).
  assert (Hin' : r' ∈ parse_rule <$> ls).
  { eapply elem_of_sublist; [done|].
    rewrite deduplicate_rules_walk. apply dedup_walk_sublist. }
  apply list_elem_of_fmap in Hr as (l & -> & _).
  apply list_elem_of_fmap in Hin' as (l' & -> & _).
  symmetry in Hk. apply parsed_key_inj in Hk as [Ht Hv].
  by apply verdict_same.
Qed.

(** X8.  Deduplication cannot hide an invalid rule.  The validation errors
    after deduplication are a subsequence of those before; and for the rules
    parsed from lines, the deduplicated sequence validates without error
    exactly when the full sequence does. *)
Theorem dedup_keeps_validation_verdict :
  (∀ rs, sublist (validate_all_rules (fst (deduplicate_rules rs)))
                 (validate_all_rules rs)) ∧
  (∀ ls : list string,
     validate_all_rules (fst (deduplicate_rules (parse_rule <$> ls))) = [] ↔
     validate_all_rules (parse_rule <$> ls) = []).
Proof.
  assert (Hsub : ∀ rs, sublist (validate_all_rules (fst (deduplicate_rules rs)))
                               (validate_all_rules rs)).
  { intros rs. apply validate_all_rules_sublist.
    rewrite deduplicate_rules_walk. apply dedup_walk_sublist. }
  split; [exact Hsub|]. intros ls. split; [apply dedup_verdict|].
  intros H. specialize (Hsub (parse_rule <$> ls)). rewrite H in Hsub.
  by apply sublist_nil_r in Hsub.
Qed.

Lemma dedup_keeps_validation_verdict_witness :
  validate_all_rules
    (parse_rule <$> ["DOMAIN,x.com"; "# c"; "domain,x.com"; "domain,x.com"])
  = [].
Proof.
  apply (proj1 (proj2 dedup_keeps_validation_verdict
                  ["DOMAIN,x.com"; "# c"; "domain,x.com"; "domain,x.com"])).
  vm_compute. reflexivity.
Defined.

Lemma final_rules_errors d content line :
  line ∈ Text.lines content →
  fst (validate_rule (parse_rule line) VALID_RULE_TYPES) = false →
  validate_all_rules (final_rules d content) ≠ [].
Proof.
  intros Hline Hbad Hnil.
  assert (Hall : validate_all_rules (parse_rule <$> Text.lines content) = []).
  { unfold final_rules in Hnil. rewrite load_rules_fst in Hnil.
    destruct d; [by apply dedup_verdict|exact Hnil]. }
  rewrite validate_all_rules_nil, Forall_forall in Hall.
  specialize (Hall (parse_rule line)).
  rewrite Hbad in Hall. discriminate Hall.
  apply list_elem_of_fmap. by exists line.
Qed.

(** X9.  One invalid line anywhere in the input makes a validating run
    fail and leaves the output file as it was, with or without
    deduplication; a malformed line is such a line, rejected as of unknown
    format. *)
Theorem invalid_line_aborts
    (with_suffix : string → string → string) (fs : gmap string string)
    (inp : string) (out : option string) (d vb : bool)
    (content line : string) :
  fs !! inp = Some content →
  line ∈ Text.lines content →
  (line_kind line = Malformed →
   validate_rule (parse_rule line) VALID_RULE_TYPES
   = (false, "Unknown rule format: " +:+ Text.strip line)) ∧
  (fst (validate_rule (parse_rule line) VALID_RULE_TYPES) = false →
   ∃ fs', process_file with_suffix fs inp out d true vb = (false, fs') ∧
          fs' !! default inp out = fs !! default inp out).
Proof.
  intros Hfs Hline. split.
  - intros Hk. by rewrite (parse_rule_malformed line Hk).
  - intros Hbad. rewrite (process_file_eq _ _ _ _ _ _ _ _ Hfs).
    pose proof (final_rules_errors d content line Hline Hbad) as Herr.
    destruct (validate_all_rules (final_rules d content)) as [|e es];
      [by destruct Herr|].
    eexists. split; [reflexivity|]. by apply after_backup_output.
Qed.

Lemma invalid_line_aborts_witness :
  let fs : gmap string string :=
    {[ "rules.list" := "DOMAIN,a.com" +:+ Text.nl +:+ "justsometext" +:+ Text.nl ]} in
  ∃ fs', process_file (λ p s, p +:+ s) fs "rules.list" (Some "out.list")
           true true false = (false, fs') ∧
         fs' !! "out.list" = fs !! "out.list".
Proof.
  intros fs.
  apply (proj2 (invalid_line_aborts (λ p s, p +:+ s) fs "rules.list"
                  (Some "out.list") true false _ ("justsometext" +:+ Text.nl)
                  eq_refl
                  ltac:(apply list_elem_of_further, list_elem_of_here))).
  reflexivity.
Defined.

(** ** Statistics *)

Section StatsFacts.
Import Stats.


Lemma stats_fold rs : ∀ st,
  let st' := fold_left stats_step rs st in
  total_lines st' = total_lines st ∧
  empty_lines st' = empty_lines st + length (List.filter is_empty rs) ∧
  comments st' = comments st + length (List.filter is_comment_line rs) ∧
  rules st' = rules st + length (List.filter is_rule rs).
Proof.
  induction rs as [|r rs IH]; intros st; simpl.
  { repeat split; lia. }
  destruct (IH (stats_step st r)) as (Ht & He & Hc & Hr).
  rewrite Ht, He, Hc, Hr. unfold stats_step, is_rule, is_comment_line.
  destruct (is_empty r), (is_comment r); simpl; repeat split; lia.
Qed.

Lemma filter_partition rs :
  length rs
  = length (List.filter is_empty rs) + length (List.filter is_comment_line rs)
    + length (List.filter is_rule rs).
Proof.
  induction rs as [|r rs IH]; simpl; [done|].
  unfold is_rule, is_comment_line in *.
  destruct (is_empty r), (is_comment r); simpl; lia.
Qed.

(** X10.  The statistics partition the lines: the total is the number of
    rules given, and it is the sum of the empty lines, the comments and the
    rules; a rule flagged both empty and comment counts as empty. *)
Theorem get_statistics_partition rs :
  let st := get_statistics rs in
  total_lines st = length rs ∧
  total_lines st = empty_lines st + comments st + rules st ∧
  empty_lines st = length (List.filter is_empty rs) ∧
  comments st
    = length (List.filter (λ r, negb (is_empty r) && is_comment r) rs) ∧
  rules st
    = length (List.filter (λ r, negb (is_empty r) && negb (is_comment r)) rs).
Proof.
  unfold get_statistics.
  destruct (stats_fold rs (mkStats (length rs) 0 0 0 ∅)) as (Ht & He & Hc & Hr).
  simpl in *. rewrite Ht, He, Hc, Hr.
  pose proof (filter_partition rs) as Hp. repeat split; lia.
Qed.


Lemma by_type_fold t rs : ∀ st n,
  by_type st !! t = count_entry n →
  by_type (fold_left stats_step rs st) !! t
  = count_entry (n + length (List.filter (of_type t) rs)).
Proof.
  induction rs as [|r rs IH]; intros st n Hst; simpl.
  { by rewrite Nat.add_0_r. }
  unfold of_type, is_rule at 1.
  destruct (is_empty r) eqn:He; simpl.
  { apply IH. unfold stats_step. by rewrite He. }
  destruct (is_comment r) eqn:Hc; simpl.
  { apply IH. unfold stats_step. by rewrite He, Hc. }
  destruct (String.eqb_spec (type r) t) as [Ht|Ht]; simpl.
  - rewrite Nat.add_succ_r. apply (IH _ (S n)).
    unfold stats_step. rewrite He, Hc. simpl. unfold bump.
    rewrite Ht, lookup_insert_eq, Hst. unfold count_entry.
    by destruct n.
  - apply IH. unfold stats_step. rewrite He, Hc. simpl. unfold bump.
    by rewrite lookup_insert_ne.
Qed.

Lemma sum_by_type_fold rs : ∀ st,
  sum_values (by_type (fold_left stats_step rs st))
  = sum_values (by_type st) + length (List.filter is_rule rs).
Proof.
  induction rs as [|r rs IH]; intros st; simpl; [lia|].
  rewrite IH. unfold stats_step, is_rule.
  destruct (is_empty r), (is_comment r); simpl; try lia.
  rewrite sum_values_bump. lia.
Qed.

(** X11.  The per-type table counts the rules by type: its entry for a type
    is the number of rules (neither empty nor comment) of that type, a type
    with no rule has no entry, and the entries add up to the rule count. *)
Theorem get_statistics_by_type rs :
  let st := get_statistics rs in
  (∀ t, by_type st !! t
        = let n := length (List.filter
                     (λ r, negb (is_empty r) && negb (is_comment r)
                           && String.eqb (type r) t) rs) in
          if n =? 0 then None else Some n) ∧
  sum_values (by_type st) = rules st.
Proof.
  intros st. subst st. split.
  - intros t. unfold get_statistics.
    by rewrite (by_type_fold t rs _ 0).
  - unfold get_statistics. rewrite sum_by_type_fold. simpl.
    destruct (stats_fold rs (mkStats (length rs) 0 0 0 ∅)) as (_ & _ & _ & Hr).
    simpl in Hr. rewrite Hr. unfold sum_values. by rewrite map_fold_empty.
Qed.

Lemma dedup_walk_filter (p : Rule → bool) rs :
  (∀ r, p r = true → is_boundary r = true) →
  ∀ seen counts,
    List.filter p (fst (dedup_walk seen counts rs)) = List.filter p rs.
Proof.
  intros Hp. induction rs as [|r rs IH]; intros seen counts; simpl; [done|].
  destruct (is_boundary r) eqn:Hb; simpl.
  { by rewrite IH. }
  assert (Hr : p r = false).
  { destruct (p r) eqn:Hpr; [|done]. apply Hp in Hpr. congruence. }
  rewrite Hr.
  destruct (bool_decide (dedup_key r ∈ seen)); simpl; [apply IH|].
  by rewrite Hr, IH.
Qed.

(** X12.  Statistics before and after deduplication: the numbers of empty
    lines and of comments are the same, and the number of rules goes down
    by the sum of the removal counts. *)
Theorem get_statistics_dedup rs :
  let before := get_statistics rs in
  let after := get_statistics (fst (deduplicate_rules rs)) in
  empty_lines after = empty_lines before ∧
  comments after = comments before ∧
  rules before = rules after + sum_values (snd (deduplicate_rules rs)).
Proof.
  intros before after. subst before after. unfold get_statistics.
  pose proof (dedup_length rs) as Hlen.
  assert (H1 : List.filter is_empty (fst (deduplicate_rules rs))
               = List.filter is_empty rs).
  { rewrite deduplicate_rules_walk. apply dedup_walk_filter.
    intros r Hr0. unfold is_boundary. rewrite Hr0. by destruct (is_comment r). }
  assert (H2 : List.filter is_comment_line (fst (deduplicate_rules rs))
               = List.filter is_comment_line rs).
  { rewrite deduplicate_rules_walk. apply dedup_walk_filter.
    intros r. unfold is_boundary, is_comment_line.
    by destruct (is_comment r), (is_empty r). }
  set (kept := fst (deduplicate_rules rs)) in *.
  set (removed := snd (deduplicate_rules rs)) in *.
  destruct (stats_fold rs (mkStats (length rs) 0 0 0 ∅)) as (_ & He & Hc & Hr).
  destruct (stats_fold kept (mkStats (length kept) 0 0 0 ∅))
    as (_ & He' & Hc' & Hr').
  simpl in He, Hc, Hr, He', Hc', Hr'. rewrite He, Hc, Hr, He', Hc', Hr'.
  pose proof (filter_partition rs) as Hp.
  pose proof (filter_partition kept) as Hp'.
  rewrite H1, H2 in *. repeat split; lia.
Qed.

End StatsFacts.

(** ** Loading *)


Lemma load_fold_full ls : ∀ rs es n,
  fold_left load_step ls (rs, es, n)
  = (rs ++ (parse_rule <$> ls),
     es ++ omap id (imap (λ i line, warning (n + i) line) ls),
     n + length ls).
Proof.
  induction ls as [|l ls IH]; intros rs es n; simpl.
  { by rewrite !app_nil_r, Nat.add_0_r. }
  rewrite IH. simpl.
  replace (imap ((λ i line, warning (n + i) line) ∘ S) ls)
    with (imap (λ i line, warning (S n + i) line) ls).
  2: { apply imap_ext. intros i x _. simpl. by rewrite Nat.add_succ_r. }
  rewrite Nat.add_0_r, Nat.add_succ_r, <- !app_assoc. unfold warning at 2.
  destruct (String.eqb (type (parse_rule l)) "UNKNOWN"); simpl;
    by rewrite <- ?app_assoc.
Qed.

Lemma unknown_type_iff line :
  type (parse_rule line) = "UNKNOWN" ↔
  line_kind line = Malformed ∨
  (line_kind line = Typed ∧ Text.upper (type_token line) = "UNKNOWN").
Proof.
  unfold line_kind, parse_rule, type_token.
  destruct (negb (truthy (Text.strip line))); simpl.
  { split; [done|]. by intros [?|[? _]]. }
  destruct (Text.startswith "#" (Text.strip line)); simpl.
  { split; [done|]. by intros [?|[? _]]. }
  destruct (Text.contains "," (Text.strip line)); simpl.
  - split; [by right|]. by intros [?|[_ ?]].
  - split; [by left|done].
Qed.

(** X13.  Loading keeps one rule per line, in order, and warns about the
    lines whose parsed type is [UNKNOWN], each with its 1-based line number
    and stripped text, in line order.  Those are the malformed lines and
    also the typed lines whose type token reads [unknown] in any letter
    case. *)
Theorem load_rules_spec :
  (∀ content,
     load_rules content
     = (parse_rule <$> Text.lines content,
        omap id
          (imap (λ i line,
                   if String.eqb (type (parse_rule line)) "UNKNOWN" then
                     Some ("Line " +:+ pretty (S i) +:+ ": Unknown format - "
                             +:+ Text.strip line)
                   else None)
                (Text.lines content)))) ∧
  (∀ line,
     type (parse_rule line) = "UNKNOWN" ↔
     line_kind line = Malformed ∨
     (line_kind line = Typed ∧ Text.upper (type_token line) = "UNKNOWN")).
Proof.
  split; [|exact unknown_type_iff].
  intros content. unfold load_rules. by rewrite load_fold_full.
Qed.

Lemma load_rules_spec_witness : type (parse_rule "Unknown , x") = "UNKNOWN".
Proof.
  apply (proj2 (proj2 load_rules_spec "Unknown , x")).
  right. split; reflexivity.
Defined.

Example ex_load_warnings :
  snd (load_rules ("# c" +:+ Text.nl +:+ "unknown,x" +:+ Text.nl +:+
                   "DOMAIN,a.com" +:+ Text.nl +:+ "justsometext"))
  = [ "Line 2: Unknown format - unknown,x";
      "Line 4: Unknown format - justsometext" ].
Proof. reflexivity. Qed.

(** ** What a run leaves in the file system *)

Lemma process_file_missing ws (fs : gmap string string) inp out d v vb :
  fs !! inp = None → process_file ws fs inp out d v vb = (false, fs).
Proof. intros H. unfold process_file. by rewrite H. Qed.

(** X14.  A run touches at most two paths: the output path and the backup
    path, and without deduplication only the output path.  Every other file
    is as before, whether the run succeeds or fails, and a run on a missing
    input changes nothing at all. *)
Theorem process_file_frame
    (with_suffix : string → string → string) (fs : gmap string string)
    (inp : string) (out : option string) (d v vb : bool) :
  let fs' := snd (process_file with_suffix fs inp out d v vb) in
  (fs !! inp = None → fs' = fs) ∧
  (∀ p, p ≠ default inp out → p ≠ with_suffix inp ".list.bak" →
        fs' !! p = fs !! p) ∧
  (d = false → ∀ p, p ≠ default inp out → fs' !! p = fs !! p).
Proof.
  intros fs'. subst fs'. destruct (fs !! inp) as [content|] eqn:Hin.
  2: { rewrite process_file_missing by done. by repeat split. }
  rewrite (process_file_eq _ _ _ _ _ _ _ _ Hin).
  split; [done|]. split.
  - intros p Hout Hbak.
    destruct (if v then _ else _); simpl;
      rewrite ?lookup_insert_ne by done; by apply after_backup_other.
  - intros -> p Hout.
    assert (Hfs : after_backup with_suffix fs inp out false content = fs).
    { unfold after_backup. by rewrite andb_false_r. }
    rewrite Hfs.
    destruct (if v then _ else _); simpl; by rewrite ?lookup_insert_ne.
Qed.

Lemma process_file_frame_witness :
  let fs : gmap string string :=
    {[ "a.list" := "DOMAIN,x.com" +:+ Text.nl; "b.list" := "keep" ]} in
  snd (process_file (λ p s, p +:+ s) fs "a.list" None true false false)
    !! "b.list" = fs !! "b.list" ∧
  snd (process_file (λ p s, p +:+ s) fs "a.list" None false false false)
    !! "a.list.list.bak" = fs !! "a.list.list.bak".
Proof.
  intros fs. split.
  - apply (proj1 (proj2 (process_file_frame (λ p s, p +:+ s) fs "a.list" None
                           true false false)));
      vm_compute; discriminate.
  - apply (proj2 (proj2 (process_file_frame (λ p s, p +:+ s) fs "a.list" None
                           false false false)) eq_refl).
    vm_compute. discriminate.
Defined.

(** X15.  After an in-place run with deduplication the backup file holds
    the original text of the input, whether the run succeeded or failed
    validation, provided the backup path is not the input path itself. *)
Theorem process_file_backup
    (with_suffix : string → string → string) (fs : gmap string string)
    (inp : string) (v vb : bool) (content : string) :
  fs !! inp = Some content →
  with_suffix inp ".list.bak" ≠ inp →
  snd (process_file with_suffix fs inp None true v vb)
    !! with_suffix inp ".list.bak" = Some content.
Proof.
  intros Hin Hbak. rewrite (process_file_eq _ _ _ _ _ _ _ _ Hin).
  assert (Hfs : after_backup with_suffix fs inp None true content
                !! with_suffix inp ".list.bak" = Some content).
  { unfold after_backup. simpl. rewrite bool_decide_eq_true_2 by done.
    apply lookup_insert_eq. }
  destruct (if v then _ else _); simpl; [by rewrite lookup_insert_ne|done].
Qed.

Lemma process_file_backup_witness :
  snd (process_file (λ p s, p +:+ s)
         {[ "a.list" := "DOMAIN,x.com" +:+ Text.nl +:+ "DOMAIN,x.com" ]}
         "a.list" None true false false)
    !! "a.list.list.bak"
  = Some ("DOMAIN,x.com" +:+ Text.nl +:+ "DOMAIN,x.com").
Proof.
  apply (process_file_backup (λ p s, p +:+ s) _ "a.list" false false).
  - reflexivity.
  - vm_compute. discriminate.
Defined.

Lemma final_rules_plain content :
  write_rules (final_rules false content) = Text.universal_newlines content.
Proof.
  unfold final_rules.
  by rewrite write_rules_concat, load_rules_fst, raw_parsed, lines_concat.
Qed.

Lemma process_file_plain_aux
    (with_suffix : string → string → string) (fs : gmap string string)
    (inp : string) (out : option string) (v vb : bool) (content : string) :
  fs !! inp = Some content →
  fst (process_file with_suffix fs inp out false v vb) = true →
  snd (process_file with_suffix fs inp out false v vb)
  = <[default inp out := Text.universal_newlines content]> fs.
Proof.
  intros Hin.
  assert (Hfs : after_backup with_suffix fs inp out false content = fs).
  { unfold after_backup. by rewrite andb_false_r. }
  rewrite !(process_file_eq _ _ _ _ _ _ _ _ Hin), !Hfs, final_rules_plain.
  by destruct (if v then _ else _).
Qed.

(** X16.  Without deduplication a successful run writes to the output the
    text of the input as the text layer reads it, malformed lines included:
    the stored text with every line ending a newline, and the stored text
    itself when it has no carriage return, in which case an in-place run
    leaves the file system as it was. *)
Theorem process_file_plain
    (with_suffix : string → string → string) (fs : gmap string string)
    (inp : string) (out : option string) (v vb : bool) (content : string) :
  fs !! inp = Some content →
  fst (process_file with_suffix fs inp out false v vb) = true →
  snd (process_file with_suffix fs inp out false v vb)
  = <[default inp out := Text.universal_newlines content]> fs ∧
  (Text.contains Text.CR content = false →
   snd (process_file with_suffix fs inp out false v vb)
   = <[default inp out := content]> fs ∧
   (out = None →
    snd (process_file with_suffix fs inp out false v vb) = fs)).
Proof.
  intros Hin Hok.
  pose proof (process_file_plain_aux with_suffix fs inp out v vb content
                Hin Hok) as H.
  split; [exact H|]. intros Hcr. rewrite universal_newlines_id in H by done.
  split; [exact H|]. intros ->. rewrite H. simpl. by apply insert_id.
Qed.

Lemma process_file_plain_witness :
  let fs : gmap string string :=
    {[ "a.list" := "justsometext" +:+ String Text.CR Text.nl +:+ "DOMAIN,x.com" ]} in
  snd (process_file (λ p s, p +:+ s) fs "a.list" None false false false)
  = <["a.list" := "justsometext" +:+ Text.nl +:+ "DOMAIN,x.com"]> fs.
Proof.
  intros fs.
  apply (process_file_plain (λ p s, p +:+ s) fs "a.list" None false false
           ("justsometext" +:+ String Text.CR Text.nl +:+ "DOMAIN,x.com"));
    reflexivity.
Defined.

(** ** Lines of a text *)


Lemma lf_lines_body b :
  Text.contains Text.NL b = false → b ≠ "" → Text.lf_lines b = [b].
Proof.
  induction b as [|c b IH]; [done|]. simpl.
  intros [Hc Hb]%orb_false_iff _. rewrite Hc.
  destruct b as [|a b]; [done|]. by rewrite IH.
Qed.

Lemma lf_lines_full b s :
  Text.contains Text.NL b = false →
  Text.lf_lines ((b +:+ Text.nl) +:+ s) = (b +:+ Text.nl) :: Text.lf_lines s.
Proof.
  induction b as [|c b IH]; [done|]. simpl.
  intros [Hc Hb]%orb_false_iff. rewrite !append_cons. simpl.
  by rewrite Hc, IH.
Qed.

Lemma lf_lines_line_list s : line_list (Text.lf_lines s).
Proof.
  induction s as [|c s IH]; simpl; [constructor|].
  destruct (Ascii.eqb c Text.NL) eqn:Hc.
  { by apply (line_list_cons ""). }
  destruct (Text.lf_lines s) as [|l ls].
  { apply line_list_last; [|done]. simpl. by rewrite Hc. }
  inversion IH as [|l' Hl Hne|b ls' Hb Hls]; subst.
  - apply line_list_last; [|done]. simpl. by rewrite Hc, Hl.
  - apply (line_list_cons (String c b)); [|done]. simpl. by rewrite Hc, Hb.
Qed.

Lemma line_list_tail l ls : line_list (l :: ls) → line_list ls.
Proof. inversion 1; subst; [constructor|done]. Qed.

Lemma line_list_sublist (k l : list string) :
  sublist k l → line_list l → line_list k.
Proof.
  induction 1 as [|x k l Hs IH|x k l Hs IH]; intros Hl; [done| |].
  - inversion Hl as [|l' Hb Hne|b ls' Hb Hls]; subst.
    + apply sublist_nil_r in Hs as ->. by constructor.
    + constructor; [done|]. by apply IH.
  - by apply IH, (line_list_tail x).
Qed.

Lemma lines_line_list s : line_list (Text.lines s).
Proof. apply lf_lines_line_list. Qed.

Lemma lf_lines_of_concat ls :
  line_list ls → Text.lf_lines (Text.concat ls) = ls.
Proof.
  induction 1 as [|l Hb Hne|b ls Hb Hls IH]; [done| |].
  - rewrite concat_cons. change (Text.concat []) with "".
    rewrite append_nil_r. by apply lf_lines_body.
  - by rewrite concat_cons, lf_lines_full, IH.
Qed.

Lemma contains_app x s t :
  Text.contains x (s +:+ t) = Text.contains x s || Text.contains x t.
Proof.
  induction s as [|c s IH]; [done|].
  rewrite append_cons. simpl. by rewrite IH, orb_assoc.
Qed.

Lemma contains_concat x (ls : list string) :
  Text.contains x (Text.concat ls) = false ↔
  Forall (λ l, Text.contains x l = false) ls.
Proof.
  induction ls as [|l ls IH].
  { split; [constructor|done]. }
  rewrite concat_cons, contains_app, orb_false_iff, Forall_cons, IH. done.
Qed.

Lemma universal_newlines_cr_free s :
  Text.contains Text.CR (Text.universal_newlines s) = false.
Proof.
  induction s as [|c s IH]; [done|]. simpl.
  destruct (Ascii.eqb c Text.CR) eqn:Hc.
  - destruct s as [|c' s]; [done|].
    destruct (Ascii.eqb c' Text.NL); [exact IH|].
    change (Text.contains Text.CR (String Text.NL ?t))
      with (Text.contains Text.CR t). exact IH.
  - simpl. by rewrite Hc, IH.
Qed.

(** The lines read from a file have no carriage return. *)
Lemma lines_cr_free s :
  Forall (λ l, Text.contains Text.CR l = false) (Text.lines s).
Proof.
  apply contains_concat. unfold Text.lines.
  rewrite lf_lines_concat. apply universal_newlines_cr_free.
Qed.

Lemma lines_of_concat ls :
  line_list ls → Forall (λ l, Text.contains Text.CR l = false) ls →
  Text.lines (Text.concat ls) = ls.
Proof.
  intros Hll Hcr. unfold Text.lines.
  rewrite universal_newlines_id by by apply contains_concat.
  by apply lf_lines_of_concat.
Qed.

Lemma parse_raw_parsed (rs : list Rule) (ls : list string) :
  sublist rs (parse_rule <$> ls) → parse_rule <$> (raw <$> rs) = rs.
Proof.
  intros Hs. apply list_eq_Forall2.
  rewrite <- list_fmap_compose. apply Forall2_fmap_l, Forall_Forall2_diag.
  apply Forall_forall. intros r Hr.
  eapply elem_of_sublist in Hr; [|done].
  apply list_elem_of_fmap in Hr as (l & -> & _). simpl.
  by rewrite raw_parse_rule.
Qed.

Lemma dedup_text_idempotent content :
  final_rules true (write_rules (final_rules true content))
  = final_rules true content.
Proof.
  unfold final_rules at 1. rewrite load_rules_fst, write_rules_concat.
  rewrite lines_of_concat.
  2: { eapply line_list_sublist; [apply final_rules_raw|apply lines_line_list]. }
  2: { eapply Forall_of_sublist; [apply final_rules_raw|apply lines_cr_free]. }
  unfold final_rules. rewrite load_rules_fst.
  rewrite (parse_raw_parsed _ (Text.lines content)).
  2: { rewrite deduplicate_rules_walk. apply dedup_walk_sublist. }
  rewrite !deduplicate_rules_walk. by rewrite dedup_walk_idem.
Qed.

(** X17.  Deduplicating a file twice is deduplicating it once: the text
    written by a deduplicating run, loaded and deduplicated again, gives the
    same rules and so the same text. *)
Theorem process_file_dedup_idempotent
    (with_suffix : string → string → string) (fs fs1 fs2 : gmap string string)
    (inp mid out : string) (vb : bool) :
  process_file with_suffix fs inp (Some mid) true false vb = (true, fs1) →
  process_file with_suffix fs1 mid (Some out) true false vb = (true, fs2) →
  fs2 !! out = fs1 !! mid.
Proof.
  destruct (fs !! inp) as [content|] eqn:Hin.
  2: { by rewrite process_file_missing. }
  rewrite (process_file_eq _ _ _ _ _ _ _ _ Hin).
  pose proof (dedup_text_idempotent content) as Hidem.
  set (W := write_rules (final_rules true content)) in *.
  set (fs0 := after_backup with_suffix fs inp (Some mid) true content).
  intros H1. injection H1 as <-.
  rewrite (process_file_eq _ _ _ _ _ _ _ W) by apply lookup_insert_eq.
  rewrite Hidem. fold W.
  set (fs0' := after_backup with_suffix _ mid (Some out) true W).
  intros H2. injection H2 as <-.
  change (default inp (Some mid)) with mid.
  change (default mid (Some out)) with out.
  by rewrite !lookup_insert_eq.
Qed.

Lemma process_file_dedup_idempotent_witness :
  let fs : gmap string string :=
    {[ "a.list" := "#g" +:+ Text.nl +:+ "DOMAIN,x.com" +:+ Text.nl +:+
                   "domain, x.com" ]} in
  ∃ fs1 fs2,
    process_file (λ p s, p +:+ s) fs "a.list" (Some "b.list") true false false
      = (true, fs1) ∧
    process_file (λ p s, p +:+ s) fs1 "b.list" (Some "c.list") true false false
      = (true, fs2) ∧
    fs2 !! "c.list" = fs1 !! "b.list".
Proof.
  intros fs. eexists _, _.
  assert (H1 : process_file (λ p s, p +:+ s) fs "a.list" (Some "b.list")
                 true false false
               = (true, snd (process_file (λ p s, p +:+ s) fs "a.list"
                               (Some "b.list") true false false)))
    by reflexivity.
  split; [exact H1|].
  assert (H2 : process_file (λ p s, p +:+ s)
                 (snd (process_file (λ p s, p +:+ s) fs "a.list"
                         (Some "b.list") true false false))
                 "b.list" (Some "c.list") true false false
               = (true, snd (process_file (λ p s, p +:+ s)
                     (snd (process_file (λ p s, p +:+ s) fs "a.list"
                             (Some "b.list") true false false))
                     "b.list" (Some "c.list") true false false)))
    by reflexivity.
  split; [exact H2|].
  exact (process_file_dedup_idempotent _ _ _ _ _ _ _ _ H1 H2).
Defined.

(** ** The lines of the converted file *)

Lemma rstrip_app_nl s : Text.rstrip (s +:+ Text.nl) = Text.rstrip s.
Proof.
  induction s as [|c s IH]; [done|].
  rewrite append_cons. simpl. by rewrite IH.
Qed.

Lemma strip_app_nl s : Text.strip (s +:+ Text.nl) = Text.strip s.
Proof.
  unfold Text.strip. induction s as [|c s IH]; [done|].
  rewrite append_cons. simpl. destruct (Text.isspace c); [done|].
  by rewrite <- append_cons, rstrip_app_nl.
Qed.

Lemma contains_lstrip_char x y s :
  Text.contains x s = false → Text.contains x (Text.lstrip_char y s) = false.
Proof.
  induction s as [|c s IH]; simpl; [done|].
  intros [Hc Hs]%orb_false_iff. destruct (Ascii.eqb c y); [by apply IH|].
  simpl. by rewrite Hc, Hs.
Qed.

Lemma convert_line_free x b :
  Text.contains x "  # " = false → Text.contains x "  - " = false →
  Text.contains x b = false →
  Text.contains x (convert_line b) = false.
Proof.
  intros Hc He Hb. unfold convert_line, convert_step.
  pose proof (contains_strip x b Hb) as Hs.
  destruct (negb (truthy (Text.strip b))); [done|].
  destruct (Text.startswith "#" (Text.strip b)); cbn -[Text.contains].
  - rewrite contains_app, Hc. cbn [orb].
    by apply contains_strip, contains_lstrip_char.
  - by rewrite contains_app, He.
Qed.

Lemma convert_line_body b :
  Text.contains Text.NL b = false →
  Text.contains Text.NL (convert_line b) = false.
Proof. by apply convert_line_free. Qed.

Lemma converted_cr_free (ls : list string) :
  Forall (λ l, Text.contains Text.CR l = false) ls →
  Forall (λ l, Text.contains Text.CR l = false)
    ((λ l, convert_line l +:+ Text.nl) <$> ls).
Proof.
  intros H. apply Forall_fmap. eapply Forall_impl; [exact H|].
  intros l Hl. simpl. rewrite contains_app, convert_line_free by done. done.
Qed.

Lemma convert_line_app_nl b : convert_line (b +:+ Text.nl) = convert_line b.
Proof. unfold convert_line, convert_step. by rewrite strip_app_nl. Qed.

Lemma converted_line_list (ls : list string) :
  line_list ls → line_list ((λ l, convert_line l +:+ Text.nl) <$> ls).
Proof.
  induction 1 as [|l Hb Hne|b ls Hb Hls IH]; simpl.
  - constructor.
  - apply line_list_cons; [by apply convert_line_body|constructor].
  - apply line_list_cons; [|done].
    rewrite convert_line_app_nl. by apply convert_line_body.
Qed.

Lemma endswith_concat_nl (f : string → string) (ls : list string) : ∀ s,
  Text.endswith Text.NL s = true →
  Text.endswith Text.NL
    (s +:+ Text.concat ((λ l, f l +:+ Text.nl) <$> ls)) = true.
Proof.
  induction ls as [|l ls IH]; intros s Hs.
  { change (Text.concat _) with "". by rewrite append_nil_r. }
  rewrite fmap_cons, concat_cons, <- !append_assoc. apply IH.
  by rewrite endswith_append.
Qed.

(** X18.  The converted file, read back line by line, is the line
    [payload:] followed by exactly one line per input line, each ended by a
    newline: no input line is lost, split or merged, and the file ends in a
    newline even when the input does not. *)
Theorem convert_list_to_yaml_lines
    (fs : gmap string string) (inp out content : string) :
  fs !! inp = Some content →
  ∃ text,
    snd (convert_list_to_yaml fs inp out) !! out = Some text ∧
    Text.lines text
    = ("payload:" +:+ Text.nl)
        :: ((λ l, convert_line l +:+ Text.nl) <$> Text.lines content) ∧
    length (Text.lines text) = S (length (Text.lines content)) ∧
    Text.endswith Text.NL text = true.
Proof.
  intros Hin. unfold convert_list_to_yaml. rewrite Hin. cbn [snd].
  eexists. split; [apply lookup_insert_eq|].
  unfold yaml_lines_of. rewrite convert_fold.
  change (["payload:"] ++ (convert_line <$> Text.lines content))
    with ("payload:" :: (convert_line <$> Text.lines content)).
  rewrite join_newline, <- list_fmap_compose.
  change ((λ s, s +:+ Text.nl) ∘ convert_line)
    with (λ l, convert_line l +:+ Text.nl).
  set (body := (λ l, convert_line l +:+ Text.nl) <$> Text.lines content).
  assert (Hll : line_list (("payload:" +:+ Text.nl) :: body)).
  { apply line_list_cons; [done|]. apply converted_line_list, lines_line_list. }
  assert (Hcr : Forall (λ l, Text.contains Text.CR l = false)
                  (("payload:" +:+ Text.nl) :: body)).
  { constructor; [done|]. apply converted_cr_free, lines_cr_free. }
  assert (Hlines : Text.lines ("payload:" +:+ Text.nl +:+ Text.concat body)
                   = ("payload:" +:+ Text.nl) :: body).
  { rewrite <- (lines_of_concat _ Hll Hcr).
    by rewrite concat_cons, append_assoc. }
  split; [exact Hlines|]. split.
  - rewrite Hlines. simpl. unfold body. by rewrite length_fmap.
  - rewrite <- append_assoc. by apply endswith_concat_nl.
Qed.

Lemma convert_list_to_yaml_lines_witness :
  let fs : gmap string string :=
    {[ "a.list" := "# c" +:+ Text.nl +:+ "DOMAIN,x.com" ]} in
  ∃ text,
    snd (convert_list_to_yaml fs "a.list" "a.yaml") !! "a.yaml" = Some text ∧
    Text.lines text
    = [ "payload:" +:+ Text.nl; "  # c" +:+ Text.nl;
        "  - DOMAIN,x.com" +:+ Text.nl ].
Proof.
  intros fs.
  destruct (convert_list_to_yaml_lines fs "a.list" "a.yaml" _ eq_refl)
    as (text & Hout & Hlines & _).
  exists text. split; [exact Hout|]. rewrite Hlines. reflexivity.
Defined.

(** ** The command line *)

Section CliFacts.
Import Cli.


Lemma lower_is_y response :
  Text.lower response = "y" ↔ response = "y" ∨ response = "Y".
Proof.
  destruct response as [|c [|c' s]]; simpl.
  - split; [done|]. by intros [?|?].
  - split.
    + intros [= Hc]. revert Hc.
      destruct c as [[] [] [] [] [] [] [] []]; vm_compute; intros Hc;
        try discriminate Hc; auto.
    + by intros [[= ->]|[= ->]].
  - split; [done|]. by intros [?|?].
Qed.

Lemma main_declined with_suffix fs args response :
  usable_output args = None → dedup args = true → inplace args = false →
  Text.lower response ≠ "y" →
  main with_suffix fs args response = (0, fs).
Proof.
  intros Hout Hd Hi Hresp. unfold main. fold (usable_output args).
  rewrite Hout, Hd, Hi. simpl.
  destruct (String.eqb_spec (Text.lower response) "y"); [done|]. done.
Qed.

Lemma main_runs with_suffix fs args response :
  usable_output args ≠ None ∨ dedup args = false ∨ inplace args = true ∨
  Text.lower response = "y" →
  main with_suffix fs args response
  = run with_suffix fs args (usable_output args).
Proof.
  intros Hcase. unfold main. fold (usable_output args).
  destruct (bool_decide_reflect (usable_output args = None)) as [Hout|Hout];
    simpl; [|done].
  destruct (dedup args); simpl; [|done].
  destruct (inplace args); simpl; [done|].
  destruct (String.eqb_spec (Text.lower response) "y"); [done|].
  destruct Hcase as [?|[?|[?|?]]]; done.
Qed.

(** X19.  In-place deduplication without [--inplace] needs the answer [y]
    or [Y] at the prompt: any other answer, [yes] included, ends the program
    with status 0 and the file system untouched, before the input is even
    looked for; with [y] or [Y] the run goes ahead in place. *)
Theorem main_confirmation
    (with_suffix : string → string → string) fs args response :
  usable_output args = None → dedup args = true → inplace args = false →
  (response ≠ "y" → response ≠ "Y" →
   main with_suffix fs args response = (0, fs)) ∧
  (response = "y" ∨ response = "Y" →
   main with_suffix fs args response
   = let '(success, fs') :=
       process_file with_suffix fs (input args) None true (validate args)
                    (verbose args) in
     (if success then 0 else 1, fs')).
Proof.
  intros Hout Hd Hi. split.
  - intros H1 H2. apply main_declined; try done.
    rewrite lower_is_y. by intros [?|?].
  - intros Hy. rewrite main_runs.
    + unfold run. by rewrite Hout, Hd.
    + right. right. right. by apply lower_is_y.
Qed.

Lemma main_confirmation_witness :
  main (λ p s, p +:+ s) {[ "a.list" := "DOMAIN,x.com" ]}
       (mkArgs "a.list" None true false false false) "yes"
  = (0, {[ "a.list" := "DOMAIN,x.com" ]}).
Proof.
  apply (proj1 (main_confirmation (λ p s, p +:+ s) _
                  (mkArgs "a.list" None true false false false) "yes"
                  eq_refl eq_refl eq_refl)); discriminate.
Defined.

(** X20.  Called with neither [--dedup] nor [--validate] and no output path
    the tool asks nothing.  On a missing input it exits with 1 and changes
    nothing.  When it exits with 0 it has rewritten the input file, and only
    that file, with its own text as the text layer reads it: the file system
    is as it was when that text has no carriage return. *)
Theorem main_statistics_only
    (with_suffix : string → string → string) fs args response :
  usable_output args = None → dedup args = false → validate args = false →
  (fs !! input args = None →
   main with_suffix fs args response = (1, fs)) ∧
  (∀ content,
     fs !! input args = Some content →
     fst (main with_suffix fs args response) = 0 →
     snd (main with_suffix fs args response)
     = <[input args := Text.universal_newlines content]> fs ∧
     (Text.contains Text.CR content = false →
      snd (main with_suffix fs args response) = fs)).
Proof.
  intros Hout Hd Hv. rewrite main_runs by auto. unfold run.
  rewrite Hout, Hd, Hv. split.
  - intros Hin. by rewrite process_file_missing.
  - intros content Hin.
    pose proof (process_file_plain_aux with_suffix fs (input args) None false
                  (verbose args) content Hin) as Hplain.
    destruct (process_file with_suffix fs (input args) None false false
                (verbose args)) as [[] fs']; [|done].
    intros _. cbn [fst snd] in *. rewrite (Hplain eq_refl).
    split; [done|]. intros Hcr. rewrite universal_newlines_id by done.
    by apply insert_id.
Qed.

Lemma main_statistics_only_witness :
  let fs : gmap string string :=
    {[ "a.list" := "DOMAIN,x.com" +:+ String Text.CR Text.nl ]} in
  snd (main (λ p s, p +:+ s) fs
         (mkArgs "a.list" (Some "") false false false true) "")
  = <["a.list" := "DOMAIN,x.com" +:+ Text.nl]> fs.
Proof.
  intros fs.
  apply (proj2 (main_statistics_only (λ p s, p +:+ s) fs
                  (mkArgs "a.list" (Some "") false false false true) ""
                  eq_refl eq_refl eq_refl)
           ("DOMAIN,x.com" +:+ String Text.CR Text.nl));
    reflexivity.
Defined.

(** X21.  With [--validate], once the run is not declined at the prompt, an
    input with an invalid line makes the program exit with status 1 and
    leaves the output file as it was. *)
Theorem main_invalid_exit
    (with_suffix : string → string → string) fs args response content line :
  fs !! input args = Some content →
  line ∈ Text.lines content →
  fst (validate_rule (parse_rule line) VALID_RULE_TYPES) = false →
  validate args = true →
  usable_output args ≠ None ∨ dedup args = false ∨ inplace args = true ∨
    Text.lower response = "y" →
  ∃ fs', main with_suffix fs args response = (1, fs') ∧
         fs' !! default (input args) (usable_output args)
         = fs !! default (input args) (usable_output args).
Proof.
  intros Hin Hline Hbad Hv Hcase. rewrite main_runs by done. unfold run.
  rewrite Hv, (process_file_eq _ _ _ _ _ _ _ _ Hin).
  pose proof (final_rules_errors (dedup args) content line Hline Hbad) as Herr.
  destruct (validate_all_rules (final_rules (dedup args) content)) as [|e es];
    [by destruct Herr|].
  eexists. split; [reflexivity|]. by apply after_backup_output.
Qed.

Lemma main_invalid_exit_witness :
  let fs : gmap string string :=
    {[ "a.list" := "DOMAIN,x.com" +:+ Text.nl +:+ "FOO,bar" ]} in
  ∃ fs', main (λ p s, p +:+ s) fs
           (mkArgs "a.list" (Some "b.list") true true false false) ""
         = (1, fs') ∧
         fs' !! "b.list" = fs !! "b.list".
Proof.
  intros fs.
  apply (main_invalid_exit (λ p s, p +:+ s) fs
           (mkArgs "a.list" (Some "b.list") true true false false) ""
           ("DOMAIN,x.com" +:+ Text.nl +:+ "FOO,bar") "FOO,bar").
  - reflexivity.
  - apply list_elem_of_further, list_elem_of_here.
  - reflexivity.
  - reflexivity.
  - left. discriminate.
Defined.

End CliFacts.
